(** * Wayback comparison tool: the content-diffing core of [app.py]

    A shallow embedding of [normalize_text], [extract_meaningful_text] and
    [find_significant_changes] of [src/app.py], with the part of CPython's
    [difflib.SequenceMatcher] they call, and the properties of the
    change report proved on it.

    Conventions of the embedding.
    - A Python [str] is a list of code points; the code points covered are
      U+0000..U+00FF, one [ascii] each.  [len] is [length], [s[:n]] is
      [firstn n s].
    - The character classes of [re] ([\w], [\s], [\d]) and [str.lower] are
      CPython's on that range.
    - Python floats produced by [/] and compared against the literals
      [0.75], [0.9] and [0.95] are modelled by exact rationals [Q]: a
      quotient of two lengths is correctly rounded, and for lengths below
      2^50 it compares with the rounded literal as the exact quotient
      compares with the decimal.
    - A [set] of keys is iterated in an order the hashes fix; the matcher
      takes that order as the parameter [set_iter]. *)

From Stdlib Require Import Ascii String DecimalString.
From Stdlib Require Import List Bool Arith Lia ZArith QArith Permutation Sorted.
Import ListNotations.
Local Open Scope nat_scope.
Local Open Scope list_scope.

(** ** Text and character classes *)

Definition text := list ascii.

Definition lit (s : string) : text := list_ascii_of_string s.

Definition text_eq_dec : forall a b : text, {a = b} + {a <> b} :=
  list_eq_dec ascii_dec.

Definition text_eqb (a b : text) : bool :=
  if text_eq_dec a b then true else false.

Definition code (c : ascii) : nat := nat_of_ascii c.

Definition in_range (lo hi : nat) (c : ascii) : bool :=
  (lo <=? code c) && (code c <=? hi).

(** [str.isspace] / [\s]: TAB..CR, FS..US, space, NEL and NBSP. *)
Definition is_space (c : ascii) : bool :=
  in_range 9 13 c || in_range 28 32 c || (code c =? 133) || (code c =? 160).

(** [\d] on [str] patterns: the decimal digits. *)
Definition is_decimal (c : ascii) : bool := in_range 48 57 c.

(** [str.isalpha]: A-Z, a-z, feminine and masculine ordinal, micro sign and
    the Latin-1 letters (all of U+00C0..U+00FF but the multiplication and
    division signs). *)
Definition is_alpha (c : ascii) : bool :=
  in_range 65 90 c || in_range 97 122 c
  || (code c =? 170) || (code c =? 181) || (code c =? 186)
  || in_range 192 214 c || in_range 216 246 c || in_range 248 255 c.

(** Digits and numerics that are not decimal: superscripts one, two, three
    and the vulgar fractions. *)
Definition is_numeric (c : ascii) : bool :=
  is_decimal c || (code c =? 178) || (code c =? 179) || (code c =? 185)
  || in_range 188 190 c.

(** [\w] on [str] patterns: alphanumeric or underscore. *)
Definition is_word (c : ascii) : bool :=
  is_alpha c || is_numeric c || (code c =? 95).

(** [str.lower] on one code point. *)
Definition lower_char (c : ascii) : ascii :=
  if in_range 65 90 c || in_range 192 214 c || in_range 216 222 c
  then ascii_of_nat (code c + 32) else c.

Definition lower (s : text) : text := map lower_char s.

(** [str.strip()]: leading and trailing whitespace removed. *)
Fixpoint lstrip (s : text) : text :=
  match s with
  | [] => []
  | c :: s' => if is_space c then lstrip s' else s
  end.

Definition strip (s : text) : text := rev (lstrip (rev (lstrip s))).

(** ** [normalize_text] *)

Definition normalize_text (t : text) : text :=
  match t with
  | [] => []
  | _ =>
    let t1 := lower t in
    (* re.sub(r'[^\w\s]', '', text) *)
    let t2 := filter (fun c => is_word c || is_space c) t1 in
    (* re.sub(r'\s+', '', text) *)
    filter (fun c => negb (is_space c)) t2
  end.

(** ** Blocks and excerpts *)

(** The element kinds of [significant_tags]. *)
Inductive tag_name : Type :=
  | tag_p | tag_h1 | tag_h2 | tag_h3 | tag_h4 | tag_h5 | tag_h6
  | tag_li | tag_th | tag_td | tag_figcaption | tag_blockquote.

Definition significant_tags : list tag_name :=
  [tag_p; tag_h1; tag_h2; tag_h3; tag_h4; tag_h5; tag_h6;
   tag_li; tag_th; tag_td; tag_figcaption; tag_blockquote].

(** [tag.upper()] *)
Definition tag_upper (t : tag_name) : text :=
  lit match t with
      | tag_p => "P" | tag_h1 => "H1" | tag_h2 => "H2" | tag_h3 => "H3"
      | tag_h4 => "H4" | tag_h5 => "H5" | tag_h6 => "H6" | tag_li => "LI"
      | tag_th => "TH" | tag_td => "TD" | tag_figcaption => "FIGCAPTION"
      | tag_blockquote => "BLOCKQUOTE"
      end.

Definition block := (tag_name * text)%type.

Definition ellipsis : text := lit "...".

Definition label (t : tag_name) : text :=
  lit "<strong>" ++ tag_upper t ++ lit "</strong>: ".

(** The conditional f-string every report entry is built with. *)
Definition excerpt (b : block) : text :=
  let '(tag, txt) := b in
  if 150 <? length txt
  then label tag ++ firstn 150 txt ++ ellipsis
  else label tag ++ txt.

(** ** Word sets of the secondary verification *)

(** [re.findall(r'\b\w+\b', s)]: the maximal runs of word characters, left
    to right.  [cur] is the run being read, reversed. *)
Fixpoint findall_words_from (cur : text) (s : text) : list text :=
  match s with
  | [] => match cur with [] => [] | _ => [rev cur] end
  | c :: s' =>
    if is_word c then findall_words_from (c :: cur) s'
    else match cur with
         | [] => findall_words_from [] s'
         | _ => rev cur :: findall_words_from [] s'
         end
  end.

Definition findall_words (s : text) : list text := findall_words_from [] s.

(** A Python [set] of strings, as a duplicate-free list. *)
Definition set_of (l : list text) : list text := nodup text_eq_dec l.

Definition set_mem (w : text) (s : list text) : bool :=
  if in_dec text_eq_dec w s then true else false.

(** [a - b] on sets. *)
Definition set_minus (a b : list text) : list text :=
  filter (fun w => negb (set_mem w b)) a.

Definition word_changes (new_text old_text : text) : nat :=
  let new_words := set_of (findall_words (lower new_text)) in
  let old_words := set_of (findall_words (lower old_text)) in
  let added_words := set_minus new_words old_words in
  let removed_words := set_minus old_words new_words in
  length added_words + length removed_words.

Definition length_diff (new_text old_text : text) : Z :=
  Z.abs (Z.of_nat (length new_text) - Z.of_nat (length old_text)).

(** [word_changes >= 5 and length_diff > 50] *)
Definition significant_pair (new_text old_text : text) : bool :=
  (5 <=? word_changes new_text old_text) && (50 <? length_diff new_text old_text)%Z.

(** ** [difflib.SequenceMatcher(None, a, b).ratio()]

    The standard-library matcher as [find_significant_changes] constructs
    it: [isjunk] is [None] and [autojunk] keeps its default [True]. *)

Module SequenceMatcher.

(** [__chain_b]: no element is junk; when [len(b) >= 200] an element that
    occurs more than [len(b) // 100 + 1] times is popular and is removed
    from [b2j]. *)
Definition popular (b : text) (elt : ascii) : bool :=
  (200 <=? length b) && (length b / 100 + 1 <? count_occ ascii_dec b elt).

(** The inner loop of [find_longest_match] for one [a[i] = x]: the new
    [j2len], as the list of its values at [j], [j+1], ... ([0] where the
    dictionary has no entry).  [bs] is [b[j:]], [diag] is the old
    [j2len.get(j-1, 0)] and [j2len] the old values from [j] on. *)
Fixpoint new_j2len (b : text) (x : ascii) (blo bhi j : nat) (bs : text)
    (diag : nat) (j2len : list nat) : list nat :=
  match bs with
  | [] => []
  | y :: bs' =>
    (if Ascii.eqb x y && negb (popular b y) && (blo <=? j) && (j <? bhi)
     then S diag else 0)
    :: new_j2len b x blo bhi (S j) bs' (hd 0 j2len) (tl j2len)
  end.

(** [if k > bestsize: besti, bestj, bestsize = i-k+1, j-k+1, k], for the
    values of one row in increasing [j]. *)
Fixpoint update_best (i j : nat) (row : list nat) (best : nat * nat * nat)
    : nat * nat * nat :=
  match row with
  | [] => best
  | k :: row' =>
    let '(_, _, bestsize) := best in
    update_best i (S j) row'
      (if bestsize <? k then (i + 1 - k, j + 1 - k, k) else best)
  end.

(** [for i in range(alo, ahi)], [as_] being [a[i:ahi]]. *)
Fixpoint scan_rows (b : text) (blo bhi i : nat) (as_ : text)
    (j2len : list nat) (best : nat * nat * nat) : nat * nat * nat :=
  match as_ with
  | [] => best
  | x :: as' =>
    let newj2len := new_j2len b x blo bhi 0 b 0 j2len in
    scan_rows b blo bhi (S i) as' newj2len (update_best i 0 newj2len best)
  end.

Definition at_ (s : text) (i : nat) : ascii := nth i s zero.

(** First extension loop: [while besti > alo and bestj > blo and
    a[besti-1] == b[bestj-1]] (nothing is junk). *)
Fixpoint extend_left (a b : text) (alo blo besti bestj bestsize : nat)
    : nat * nat * nat :=
  match besti with
  | 0 => (besti, bestj, bestsize)
  | S i' =>
    if (alo <? besti) && (blo <? bestj)
       && Ascii.eqb (at_ a i') (at_ b (bestj - 1))
    then extend_left a b alo blo i' (bestj - 1) (bestsize + 1)
    else (besti, bestj, bestsize)
  end.

(** Second extension loop: [while besti+bestsize < ahi and
    bestj+bestsize < bhi and a[besti+bestsize] == b[bestj+bestsize]];
    [room] bounds the iterations by [ahi - (besti + bestsize)]. *)
Fixpoint extend_right (a b : text) (ahi bhi besti bestj room bestsize : nat)
    : nat :=
  match room with
  | 0 => bestsize
  | S room' =>
    if (besti + bestsize <? ahi) && (bestj + bestsize <? bhi)
       && Ascii.eqb (at_ a (besti + bestsize)) (at_ b (bestj + bestsize))
    then extend_right a b ahi bhi besti bestj room' (bestsize + 1)
    else bestsize
  end.

(** [find_longest_match(alo, ahi, blo, bhi)].  The two loops that absorb
    junk on each side never run, [bjunk] being empty. *)
Definition find_longest_match (a b : text) (alo ahi blo bhi : nat)
    : nat * nat * nat :=
  let '(besti, bestj, bestsize) :=
    scan_rows b blo bhi alo (firstn (ahi - alo) (skipn alo a)) []
      (alo, blo, 0) in
  let '(besti, bestj, bestsize) :=
    extend_left a b alo blo besti bestj bestsize in
  (besti, bestj,
   extend_right a b ahi bhi besti bestj (ahi - (besti + bestsize)) bestsize).

(** The sum of the sizes of the blocks [get_matching_blocks] collects from
    the window [(alo, ahi, blo, bhi)] and the windows it queues on its
    left and right.  [fuel] bounds the nesting of windows. *)
Fixpoint matching_size (fuel : nat) (a b : text) (alo ahi blo bhi : nat)
    : nat :=
  match fuel with
  | 0 => 0
  | S fuel' =>
    let '(i, j, k) := find_longest_match a b alo ahi blo bhi in
    if k =? 0 then 0
    else
      k
      + (if (alo <? i) && (blo <? j)
         then matching_size fuel' a b alo i blo j else 0)
      + (if (i + k <? ahi) && (j + k <? bhi)
         then matching_size fuel' a b (i + k) ahi (j + k) bhi else 0)
  end.

Definition matches (a b : text) : nat :=
  matching_size (S (length a)) a b 0 (length a) 0 (length b).

(** [_calculate_ratio(matches, len(a) + len(b))] *)
Definition ratio (a b : text) : Q :=
  let length_ := length a + length b in
  if length_ =? 0 then 1%Q
  else (Z.of_nat (2 * matches a b) # Pos.of_nat length_).

End SequenceMatcher.

(** ** Exceptions *)

Inductive exn : Type :=
  | ZeroDivisionError | KeyError | TypeError
  | ParserRejectedMarkup.

Definition py (A : Type) : Type := (exn + A)%type.

Definition ret {A : Type} (x : A) : py A := inr x.
Definition raise {A : Type} (e : exn) : py A := inl e.

Definition bind {A B : Type} (c : py A) (k : A -> py B) : py B :=
  match c with
  | inl e => inl e
  | inr x => k x
  end.

Notation "x <- c ;; k" := (bind c (fun x => k))
  (at level 61, c at next level, right associativity).
Notation "' p <- c ;; k" := (bind c (fun x => let 'p := x in k))
  (at level 61, p pattern, c at next level, right associativity).

(** A [for] loop whose body appends to one list and may raise. *)
Fixpoint for_each {A B : Type} (l : list A) (body : A -> py (list B))
    : py (list B) :=
  match l with
  | [] => ret []
  | x :: l' =>
    r <- body x ;;
    rs <- for_each l' body ;;
    ret (r ++ rs)
  end.

(** ** Dictionaries from normalized key to blocks, in insertion order *)

Definition dict := list (text * list block).

Definition dict_keys (m : dict) : list text := map fst m.

(** [k in m] *)
Definition dict_mem (k : text) (m : dict) : bool := set_mem k (dict_keys m).

(** [m[k]] *)
Fixpoint dict_get (k : text) (m : dict) : py (list block) :=
  match m with
  | [] => raise KeyError
  | (k', items) :: m' => if text_eqb k k' then ret items else dict_get k m'
  end.

(** [if k not in m: m[k] = []] then [m[k].append(item)] *)
Fixpoint dict_append (k : text) (item : block) (m : dict) : dict :=
  match m with
  | [] => [(k, [item])]
  | (k', items) :: m' =>
    if text_eqb k k' then (k', items ++ [item]) :: m'
    else (k', items) :: dict_append k item m'
  end.

(** The first two loops of [find_significant_changes]. *)
Definition normalized_map (items : list block) : dict :=
  fold_left
    (fun m item =>
       let ultra_normalized := normalize_text (snd item) in
       if length ultra_normalized <? 30 then m
       else dict_append ultra_normalized item m)
    items [].

(** ** [find_significant_changes] *)

Definition Qltb (x y : Q) : bool := negb (Qle_bool y x).

(** [min(len(new_norm), len(old_norm)) / max(len(new_norm), len(old_norm))] *)
Definition length_ratio (new_norm old_norm : text) : py Q :=
  let lo := Nat.min (length new_norm) (length old_norm) in
  let hi := Nat.max (length new_norm) (length old_norm) in
  if hi =? 0 then raise ZeroDivisionError
  else ret (Z.of_nat lo # Pos.of_nat hi).

(** The search [for old_norm in old_normalized_texts] for the best match
    of [new_norm]. *)
Fixpoint best_match (new_norm : text) (old_normalized_texts : list text)
    (best_old_norm : option text) (best_similarity : Q)
    : py (option text * Q) :=
  match old_normalized_texts with
  | [] => ret (best_old_norm, best_similarity)
  | old_norm :: rest =>
    r <- length_ratio new_norm old_norm ;;
    if Qltb r (3 # 4)
    then best_match new_norm rest best_old_norm best_similarity
    else
      let similarity := SequenceMatcher.ratio new_norm old_norm in
      if Qltb best_similarity similarity && Qltb (3 # 4) similarity
      then best_match new_norm rest (Some old_norm) similarity
      else best_match new_norm rest best_old_norm best_similarity
  end.

(** The body of [for old_tag, old_text in old_normalized_map[best_old_norm]]
    for one new block: the (old, new) pairs a [modified] entry is appended
    for. *)
Definition verified_pairs (new_item : block) (old_items : list block)
    : list (block * block) :=
  flat_map
    (fun old_item =>
       if significant_pair (snd new_item) (snd old_item)
       then [(old_item, new_item)] else [])
    old_items.

(** One iteration of [for new_norm in new_normalized_texts].  The pattern
    [Some (_ :: _)] is the truth value of [best_old_norm]: neither [None]
    nor the empty string. *)
Definition modified_for (old_normalized_map new_normalized_map : dict)
    (old_normalized_texts : list text) (new_norm : text)
    : py (list (block * block)) :=
  if set_mem new_norm old_normalized_texts then ret []
  else
    '(best_old_norm, best_similarity) <-
       best_match new_norm old_normalized_texts None 0%Q ;;
    match best_old_norm with
    | Some ((_ :: _) as best) =>
      if Qltb (3 # 4) best_similarity && Qltb best_similarity (9 # 10)
      then
        new_blocks <- dict_get new_norm new_normalized_map ;;
        for_each new_blocks
          (fun new_item =>
             old_blocks <- dict_get best old_normalized_map ;;
             ret (verified_pairs new_item old_blocks))
      else ret []
    | _ => ret []
    end.

(** The loop [for normalized_text, items in new_normalized_map.items()]
    that fills [added]; with the maps swapped, the one that fills
    [removed]. *)
Definition unmatched_items (this_map other_map : dict) : list block :=
  flat_map
    (fun entry =>
       let '(normalized_text, items) := entry in
       if negb (dict_mem normalized_text other_map)
       then if 50 <? length normalized_text then items else []
       else [])
    this_map.

(** The blocks each category of the report is built from. *)
Record sources : Type := {
  added_items : list block;
  removed_items : list block;
  modified_pairs : list (block * block)
}.

(** One entry of [results['modified']]. *)
Record change : Type := { old : text; new : text }.

Record results : Type := {
  added : list text;
  removed : list text;
  modified : list change
}.

Definition render (s : sources) : results :=
  {| added := map excerpt (added_items s);
     removed := map excerpt (removed_items s);
     modified :=
       map (fun pr => {| old := excerpt (fst pr); new := excerpt (snd pr) |})
           (modified_pairs s) |}.

Section Matcher.

(** The order in which CPython iterates over [set(d.keys())]: some
    arrangement of the keys, fixed by their hashes. *)
Variable set_iter : list text -> list text.

(** [old_normalized_texts], as the matcher builds it. *)
Definition old_texts_of (old_items : list block) : list text :=
  set_iter (dict_keys (normalized_map old_items)).

(** The three classification loops, on the blocks themselves. *)
Definition classify (old_items new_items : list block) : py sources :=
  let old_normalized_map := normalized_map old_items in
  let new_normalized_map := normalized_map new_items in
  let added_ := unmatched_items new_normalized_map old_normalized_map in
  let removed_ := unmatched_items old_normalized_map new_normalized_map in
  let old_normalized_texts := set_iter (dict_keys old_normalized_map) in
  let new_normalized_texts := set_iter (dict_keys new_normalized_map) in
  modified_ <-
    for_each new_normalized_texts
      (modified_for old_normalized_map new_normalized_map
         old_normalized_texts) ;;
  ret {| added_items := added_;
         removed_items := removed_;
         modified_pairs := modified_ |}.

Definition find_significant_changes (old_items new_items : list block)
    (similarity_threshold : Q) : py results :=
  s <- classify old_items new_items ;;
  ret (render s).

End Matcher.

(** ** The pairwise variant, [find_significant_changes] of
    [wayback_diff.py] *)

Module Pairwise.

(** [for old_tag, old_text in old_items] of the first loop. *)
Fixpoint best_of (new_text : text) (old_items : list block)
    (best_match : option block) (best_similarity : Q) : option block * Q :=
  match old_items with
  | [] => (best_match, best_similarity)
  | old_item :: rest =>
    let similarity := SequenceMatcher.ratio new_text (snd old_item) in
    if Qltb best_similarity similarity
    then best_of new_text rest (Some old_item) similarity
    else best_of new_text rest best_match best_similarity
  end.

(** The first loop; [best_match[0]] raises [TypeError] on [None]. *)
Fixpoint added_and_modified (old_items new_items : list block)
    (similarity_threshold : Q) : py (list text * list change) :=
  match new_items with
  | [] => ret ([], [])
  | new_item :: rest =>
    let '(best_match, best_similarity) :=
      best_of (snd new_item) old_items None 0%Q in
    if Qltb best_similarity similarity_threshold
    then
      '(added_, modified_) <-
         added_and_modified old_items rest similarity_threshold ;;
      ret (excerpt new_item :: added_, modified_)
    else if Qltb best_similarity (95 # 100)
    then
      match best_match with
      | None => raise TypeError
      | Some old_item =>
        '(added_, modified_) <-
           added_and_modified old_items rest similarity_threshold ;;
        ret (added_,
             {| old := excerpt old_item; new := excerpt new_item |}
             :: modified_)
      end
    else added_and_modified old_items rest similarity_threshold
  end.

(** [best_similarity = max(best_similarity, similarity)] over the new
    items. *)
Fixpoint best_similarity_of (old_text : text) (new_items : list block)
    (best_similarity : Q) : Q :=
  match new_items with
  | [] => best_similarity
  | new_item :: rest =>
    let similarity := SequenceMatcher.ratio old_text (snd new_item) in
    best_similarity_of old_text rest
      (if Qltb best_similarity similarity then similarity
       else best_similarity)
  end.

Definition find_significant_changes (old_items new_items : list block)
    (similarity_threshold : Q) : py results :=
  '(added_, modified_) <-
     added_and_modified old_items new_items similarity_threshold ;;
  ret {| added := added_;
         removed :=
           map excerpt
             (filter
                (fun old_item =>
                   Qltb (best_similarity_of (snd old_item) new_items 0%Q)
                        similarity_threshold)
                old_items);
         modified := modified_ |}.

End Pairwise.

(** ** [extract_meaningful_text] *)

(** [re.match(r'^[\d\W]+$', text)] succeeds: [text] is not empty and each
    of its characters is a decimal digit or not a word character. *)
Definition only_digits_and_nonword (s : text) : bool :=
  match s with
  | [] => false
  | _ => forallb (fun c => is_decimal c || negb (is_word c)) s
  end.

Section Extractor.

(** BeautifulSoup is outside the repository.  [soup] is a parsed document
    with the non-content elements decomposed, [parse] builds it and
    [find_all_text s tag_name] lists [tag.get_text()] for the elements
    [s.find_all(tag_name)], in document order.  Here [parse] is the parser
    on markup it accepts; the exception it raises on markup it rejects is
    taken into account with [extract_or_raise], where [compare_pages]
    calls the extractor. *)
Variable soup : Type.
Variable parse : text -> soup.
Variable find_all_text : soup -> tag_name -> list text.

Definition extract_meaningful_text (html_content : option text)
    : list block :=
  match html_content with
  | None => []
  | Some html =>
    let s := parse html in
    flat_map
      (fun tag_name =>
         flat_map
           (fun raw =>
              let txt := strip raw in
              if (10 <? length txt) && negb (only_digits_and_nonword txt)
              then [(tag_name, txt)] else [])
           (find_all_text s tag_name))
      significant_tags
  end.

End Extractor.

Arguments extract_meaningful_text {soup} parse find_all_text html_content.

(** ** [compare_pages]: the HTML report *)

Definition dq : text := [ascii_of_nat 34].
Definition nl : text := [ascii_of_nat 10].

(** [%d] of a length. *)
Definition decimal (n : nat) : text :=
  list_ascii_of_string (NilEmpty.string_of_uint (Nat.to_uint n)).

(** The template of [html_report], cut at its six conversion
    specifiers ([%d], [%s], [%d], [%s], [%d], [%s]). *)

Definition template_0 : text :=
  lit ""
  ++ nl ++ lit "    <div class=" ++ dq ++ lit "comparison-report" ++ dq ++ lit ">"
  ++ nl ++ lit "        <style>"
  ++ nl ++ lit "            .comparison-report { font-family: Arial, sans-serif; line-height: 1.6; }"
  ++ nl ++ lit "            .changes-container { margin: 20px 0; }"
  ++ nl ++ lit "            .change-card { margin-bottom: 20px; border: 1px solid #ddd; border-radius: 5px; overflow: hidden; }"
  ++ nl ++ lit "            .card-header { padding: 10px 15px; font-weight: bold; color: white; }"
  ++ nl ++ lit "            .added-header { background-color: #28a745; }"
  ++ nl ++ lit "            .removed-header { background-color: #dc3545; }"
  ++ nl ++ lit "            .modified-header { background-color: #fd7e14; }"
  ++ nl ++ lit "            .card-body { padding: 15px; max-height: 400px; overflow-y: auto; }"
  ++ nl ++ lit "            .change-item { padding: 10px; margin-bottom: 10px; border-radius: 4px; }"
  ++ nl ++ lit "            .added-item { background-color: #e6ffed; border-left: 4px solid #28a745; }"
  ++ nl ++ lit "            .removed-item { background-color: #ffeef0; border-left: 4px solid #dc3545; }"
  ++ nl ++ lit "            .modified-item { background-color: #fff8e1; border-left: 4px solid #fd7e14; }"
  ++ nl ++ lit "            .change-diff { display: flex; flex-direction: column; gap: 10px; }"
  ++ nl ++ lit "            .old-text, .new-text { padding: 8px; border-radius: 4px; }"
  ++ nl ++ lit "            .old-text { background-color: #ffeef0; }"
  ++ nl ++ lit "            .new-text { background-color: #e6ffed; }"
  ++ nl ++ lit "            .empty-message { color: #6c757d; font-style: italic; text-align: center; margin: 20px 0; }"
  ++ nl ++ lit "        </style>"
  ++ nl ++ lit "        "
  ++ nl ++ lit "        <div class=" ++ dq ++ lit "changes-container" ++ dq ++ lit ">"
  ++ nl ++ lit "            <div class=" ++ dq ++ lit "change-card" ++ dq ++ lit ">"
  ++ nl ++ lit "                <div class=" ++ dq ++ lit "card-header added-header" ++ dq ++ lit ">New Content (".

Definition template_1 : text :=
  lit ")</div>"
  ++ nl ++ lit "                <div class=" ++ dq ++ lit "card-body" ++ dq ++ lit ">"
  ++ nl ++ lit "                    ".

Definition template_2 : text :=
  lit ""
  ++ nl ++ lit "                </div>"
  ++ nl ++ lit "            </div>"
  ++ nl ++ lit "            "
  ++ nl ++ lit "            <div class=" ++ dq ++ lit "change-card" ++ dq ++ lit ">"
  ++ nl ++ lit "                <div class=" ++ dq ++ lit "card-header removed-header" ++ dq ++ lit ">Removed Content (".

Definition template_3 : text :=
  lit ")</div>"
  ++ nl ++ lit "                <div class=" ++ dq ++ lit "card-body" ++ dq ++ lit ">"
  ++ nl ++ lit "                    ".

Definition template_4 : text :=
  lit ""
  ++ nl ++ lit "                </div>"
  ++ nl ++ lit "            </div>"
  ++ nl ++ lit "            "
  ++ nl ++ lit "            <div class=" ++ dq ++ lit "change-card" ++ dq ++ lit ">"
  ++ nl ++ lit "                <div class=" ++ dq ++ lit "card-header modified-header" ++ dq ++ lit ">Modified Content (".

Definition template_5 : text :=
  lit ")</div>"
  ++ nl ++ lit "                <div class=" ++ dq ++ lit "card-body" ++ dq ++ lit ">"
  ++ nl ++ lit "                    ".

Definition template_6 : text :=
  lit ""
  ++ nl ++ lit "                </div>"
  ++ nl ++ lit "            </div>"
  ++ nl ++ lit "        </div>"
  ++ nl ++ lit "    </div>"
  ++ nl ++ lit "    ".

(** The items of one card, or the message of an empty card. *)
Definition added_html (items : list text) : text :=
  match items with
  | [] =>
    lit "<div class=" ++ dq ++ lit "empty-message" ++ dq
    ++ lit ">No new content detected</div>"
  | _ =>
    concat
      (map (fun item =>
              lit "<div class=" ++ dq ++ lit "change-item added-item" ++ dq
              ++ lit ">" ++ item ++ lit "</div>")
           items)
  end.

Definition removed_html (items : list text) : text :=
  match items with
  | [] =>
    lit "<div class=" ++ dq ++ lit "empty-message" ++ dq
    ++ lit ">No removed content detected</div>"
  | _ =>
    concat
      (map (fun item =>
              lit "<div class=" ++ dq ++ lit "change-item removed-item" ++ dq
              ++ lit ">" ++ item ++ lit "</div>")
           items)
  end.

Definition modified_html (changes : list change) : text :=
  match changes with
  | [] =>
    lit "<div class=" ++ dq ++ lit "empty-message" ++ dq
    ++ lit ">No modified content detected</div>"
  | _ =>
    concat
      (map (fun c =>
              lit "<div class=" ++ dq ++ lit "change-item modified-item" ++ dq
              ++ lit "><div class=" ++ dq ++ lit "change-diff" ++ dq
              ++ lit "><div class=" ++ dq ++ lit "old-text" ++ dq
              ++ lit ">Before: " ++ old c
              ++ lit "</div><div class=" ++ dq ++ lit "new-text" ++ dq
              ++ lit ">After: " ++ new c ++ lit "</div></div></div>")
           changes)
  end.

(** The template applied to the three counts and the three cards. *)
Definition html_report (changes : results) : text :=
  template_0 ++ decimal (length (added changes))
  ++ template_1 ++ added_html (added changes)
  ++ template_2 ++ decimal (length (removed changes))
  ++ template_3 ++ removed_html (removed changes)
  ++ template_4 ++ decimal (length (modified changes))
  ++ template_5 ++ modified_html (modified changes)
  ++ template_6.

Definition fetch_error_message : text :=
  lit "Could not compare pages due to fetch error.".

Section Pages.

Variable soup : Type.

(** [BeautifulSoup(html_content, 'html.parser')] and the [decompose] loop
    after it: the parsed document, or the exception the parser raises on
    markup it rejects ([ParserRejectedMarkup]). *)
Variable parse : text -> py soup.
Variable find_all_text : soup -> tag_name -> list text.
Variable set_iter : list text -> list text.

(** The call [extract_meaningful_text(html_content)] with the exception
    of the parser: nothing is parsed when the content is [None]. *)
Definition extract_or_raise (html_content : option text)
    : py (list block) :=
  match html_content with
  | None => ret []
  | Some html =>
    s <- parse html ;;
    ret (extract_meaningful_text (fun _ => s) find_all_text html_content)
  end.

(** [compare_pages]; the matcher is called with its default threshold. *)
Definition compare_pages (old_content new_content : option text)
    : py (option results * text) :=
  match old_content, new_content with
  | Some _, Some _ =>
    old_items <- extract_or_raise old_content ;;
    new_items <- extract_or_raise new_content ;;
    changes <-
      find_significant_changes set_iter old_items new_items (7 # 10) ;;
    ret (Some changes, html_report changes)
  | _, _ => ret (None, fetch_error_message)
  end.

End Pages.

Arguments extract_or_raise {soup} parse find_all_text html_content.
Arguments compare_pages {soup} parse find_all_text set_iter
  old_content new_content.

(** [s] occurs in [t], character for character. *)
Definition occurs_in (s t : text) : Prop :=
  exists before after, t = before ++ s ++ after.

(** ** Notions the properties are stated with *)

(** The normalized key of a block. *)
Definition key_of (b : block) : text := normalize_text (snd b).

Definition has_key (k : text) (b : block) : bool := text_eqb (key_of b) k.

(** Some block of [items] normalizes to [k]. *)
Definition key_in (k : text) (items : list block) : Prop :=
  exists b, In b items /\ key_of b = k.

(** The number of words that are in exactly one of the two word sets. *)
Definition symmetric_difference_card (new_text old_text : text) : nat :=
  let new_words := findall_words (lower new_text) in
  let old_words := findall_words (lower old_text) in
  length
    (nodup text_eq_dec
       (filter (fun w => xorb (set_mem w new_words) (set_mem w old_words))
               (new_words ++ old_words))).

(** What the map holds once the blocks [seen] have been processed. *)
Definition map_of (seen : list block) (m : dict) : Prop :=
  NoDup (dict_keys m)
  /\ (forall k bs, In (k, bs) m ->
        bs = filter (has_key k) seen /\ 30 <= length k /\ key_in k seen)
  /\ (forall b, In b seen -> 30 <= length (key_of b) ->
        In (key_of b) (dict_keys m)).

Definition map_step (m : dict) (item : block) : dict :=
  let ultra_normalized := normalize_text (snd item) in
  if length ultra_normalized <? 30 then m
  else dict_append ultra_normalized item m.

(** The pre-filter lets the pair through: [length_ratio >= 0.75]. *)
Definition survives_prefilter (new_norm old_norm : text) : Prop :=
  exists r, length_ratio new_norm old_norm = inr r /\ (3 # 4 <= r)%Q.

(** The best-match search over [old_normalized_texts] ends on [best] with
    a similarity the final [if] lets through. *)
Definition accepted_match (old_normalized_texts : list text)
    (new_norm best : text) : Prop :=
  ~ In new_norm old_normalized_texts
  /\ exists s,
       best_match new_norm old_normalized_texts None 0%Q = inr (Some best, s)
       /\ best <> []
       /\ (3 # 4 < s)%Q /\ (s < 9 # 10)%Q.

(** Following the specification, not the code: [min(len)/max(len) >= 0.75]
    on two keys that are not both empty, without the division. *)
Definition length_ratio_at_least_075 (a b : text) : Prop :=
  0 < Nat.max (length a) (length b)
  /\ 3 * Nat.max (length a) (length b) <= 4 * Nat.min (length a) (length b).

(** [old_norm] is a best fuzzy match of [new_norm]: [new_norm] is not a
    key of the old map, [old_norm] is one, passes the pre-filter, has a
    similarity in the open interval (0.75, 0.9) and no key of the old map
    that passes the pre-filter has a larger one. *)
Definition best_fuzzy_match (old_items : list block)
    (new_norm old_norm : text) : Prop :=
  let old_keys := dict_keys (normalized_map old_items) in
  ~ In new_norm old_keys
  /\ In old_norm old_keys
  /\ length_ratio_at_least_075 new_norm old_norm
  /\ (3 # 4 < SequenceMatcher.ratio new_norm old_norm)%Q
  /\ (SequenceMatcher.ratio new_norm old_norm < 9 # 10)%Q
  /\ forall o, In o old_keys -> length_ratio_at_least_075 new_norm o ->
       (SequenceMatcher.ratio new_norm o
        <= SequenceMatcher.ratio new_norm old_norm)%Q.

(** [e] shows the text of [b] cut at 150 characters: after the tag in
    bold, the first 150 characters and three dots when the text is longer,
    the whole text and nothing more otherwise. *)
Definition well_truncated (b : block) (e : text) : Prop :=
  (150 < length (snd b) ->
     e = lit "<strong>" ++ tag_upper (fst b) ++ lit "</strong>: "
           ++ firstn 150 (snd b) ++ lit "..."
     /\ length e = 8 + length (tag_upper (fst b)) + 11 + 150 + 3)
  /\ (length (snd b) <= 150 ->
       e = lit "<strong>" ++ tag_upper (fst b) ++ lit "</strong>: "
             ++ snd b).

(** [e] is an excerpt of the report [r]. *)
Definition excerpt_of_report (r : results) (e : text) : Prop :=
  In e (added r) \/ In e (removed r)
  \/ exists c, In c (modified r) /\ (e = old c \/ e = new c).

(** [b] is the source of an excerpt of some category. *)
Definition is_source (s : sources) (b : block) : Prop :=
  In b (added_items s) \/ In b (removed_items s)
  \/ exists pr, In pr (modified_pairs s) /\ (b = fst pr \/ b = snd pr).

(** ** Sample inputs *)

(** Sets iterated in the order of insertion. *)
Definition insertion_order (l : list text) : list text := l.

Definition scenario3_old_block : block :=
  (tag_p,
   lit "The quick brown fox jumps over the lazy dog near the river bank today.").

Definition scenario3_new_block : block :=
  (tag_p,
   lit "The quick brown fox jumps over the lazy dog near the riverbank yesterday afternoon.").

Definition scenario3_old : list block := [scenario3_old_block].

Definition scenario3_new : list block := [scenario3_new_block].

(** The new paragraph of scenario 3 followed by a rule of dashes, 126
    characters against the 70 of the old one. *)
Definition ruled_new_block : block :=
  (tag_p,
   lit "The quick brown fox jumps over the lazy dog near the riverbank yesterday afternoon. ------------------------------------------").

Definition ruled_new : list block := [ruled_new_block].

Definition scenario2_text : text :=
  lit "A brand new substantial paragraph of significant length exceeding fifty normalized characters for sure.".

(** The same text twice, under two tags. *)
Definition twice_new : list block :=
  [(tag_p, scenario2_text); (tag_h2, scenario2_text)].

(** A paragraph of 208 characters. *)
Definition long_block : block :=
  (tag_p, scenario2_text ++ lit " " ++ scenario2_text).

Definition long_new : list block := [long_block].

Definition short_block : block := (tag_li, lit "Home | About | Contact").

(** A parsed page, as the texts of its elements by tag. *)
Definition page := tag_name -> list text.

(** A page whose only paragraph is a signature line. *)
Definition signature_page : page :=
  fun t => match t with
           | tag_p => [lit "  __________ 2024  "]
           | _ => []
           end.

Definition signature_html : text := lit "<p>  __________ 2024  </p>".

(** A page whose only paragraph is scenario 4's text. *)
Definition digits_page : page :=
  fun t => match t with
           | tag_p => [lit "12345 !!! ---"]
           | _ => []
           end.

(** A match [(besti, _, bestsize)] lies in the window of [a] that starts at
    [alo] and ends before [top]. *)
Definition within (alo top : nat) (best : nat * nat * nat) : Prop :=
  let '(besti, _, bestsize) := best in
  alo <= besti /\ besti + bestsize <= top.

(** ** Notions for the further properties *)

(** The test of the extractor on a stripped text. *)
Definition kept (txt : text) : bool :=
  (10 <? length txt) && negb (only_digits_and_nonword txt).

(** A text that neither starts nor ends with whitespace. *)
Definition trimmed (s : text) : Prop :=
  (forall c r, s = c :: r -> is_space c = false)
  /\ (forall f c, s = f ++ [c] -> is_space c = false).

(** The position of a tag in [significant_tags]. *)
Definition tag_rank (t : tag_name) : nat :=
  match t with
  | tag_p => 0 | tag_h1 => 1 | tag_h2 => 2 | tag_h3 => 3 | tag_h4 => 4
  | tag_h5 => 5 | tag_h6 => 6 | tag_li => 7 | tag_th => 8 | tag_td => 9
  | tag_figcaption => 10 | tag_blockquote => 11
  end.

Definition has_tag (t : tag_name) (b : block) : bool :=
  tag_rank (fst b) =? tag_rank t.

(** Scenario 5: the same words in another case, punctuation and
    spacing, under another tag. *)
Definition scenario5_old : list block :=
  [(tag_p,
    lit "Hello world, this is a test paragraph with enough length to pass filters.")].

Definition scenario5_new : list block :=
  [(tag_h2,
    lit "HELLO WORLD -- this is a test paragraph,  with enough length to pass filters!")].

(** The best similarity of a new text on the old side, as the first loop
    of the pairwise variant computes it. *)
Definition pairwise_best (old_items : list block) (new_item : block)
    : option block * Q :=
  Pairwise.best_of (snd new_item) old_items None 0%Q.

(** A new item the pairwise variant adds, and one it reports modified. *)
Definition pairwise_added (old_items : list block) (thr : Q)
    (new_item : block) : bool :=
  Qltb (snd (pairwise_best old_items new_item)) thr.

Definition pairwise_modified (old_items : list block) (thr : Q)
    (new_item : block) : bool :=
  negb (pairwise_added old_items thr new_item)
  && Qltb (snd (pairwise_best old_items new_item)) (95 # 100).

(** An old item the pairwise variant removes. *)
Definition pairwise_removed (new_items : list block) (thr : Q)
    (old_item : block) : bool :=
  Qltb (Pairwise.best_similarity_of (snd old_item) new_items 0%Q) thr.

(** A stand-in for the parser: the whole content is the text of one
    paragraph. *)
Definition one_paragraph (html : text) : page :=
  fun t => match t with
           | tag_p => [html]
           | _ => []
           end.

Definition elements_of (s : page) (t : tag_name) : list text := s t.





(** Two old paragraphs, the one of scenario 5 before the one of
    scenario 3. *)
Definition two_candidates : list block := scenario5_old ++ scenario3_old.

Definition nothing_reported : results :=
  {| added := []; removed := []; modified := [] |}.

(** The same for the window of [b]: a match [(_, bestj, bestsize)] lies
    between [blo] and [top]. *)
Definition within_b (blo top : nat) (best : nat * nat * nat) : Prop :=
  let '(_, bestj, bestsize) := best in
  blo <= bestj /\ bestj + bestsize <= top.

(** A value of [j2len] at column [j]: nothing, or the length of a match
    that ends at [j] inside the window of [b]. *)
Definition col_ok (blo bhi j k : nat) : Prop :=
  k = 0 \/ (blo <= j /\ j < bhi /\ k <= j + 1 - blo).

Fixpoint row_ok (blo bhi j : nat) (row : list nat) : Prop :=
  match row with
  | [] => True
  | k :: row' => col_ok blo bhi j k /\ row_ok blo bhi (S j) row'
  end.

(** ** The similarity the specification names *)

(** [s] is a subsequence of [t]. *)
Fixpoint is_subsequence (s t : text) {struct t} : bool :=
  match t with
  | [] => match s with [] => true | _ :: _ => false end
  | y :: t' =>
    match s with
    | [] => true
    | x :: s' =>
      if Ascii.eqb x y then is_subsequence s' t' else is_subsequence s t'
    end
  end.

(** Following the specification, not the code: the ratio based on the
    longest common subsequence, [2 * LCS(a, b) / (len(a) + len(b))], is at
    least [q].  The longest common subsequence being the longest of the
    common subsequences, this says that some common subsequence is that
    long. *)
Definition lcs_ratio_at_least (q : Q) (a b : text) : Prop :=
  exists s,
    is_subsequence s a = true /\ is_subsequence s b = true
    /\ (q <= Z.of_nat (2 * length s) # Pos.of_nat (length a + length b))%Q.

(** A paragraph of an archived page, and the live paragraph: the same
    with one sentence more before the last one. *)
Definition archived_block : block :=
  (tag_p,
   lit "The Wayback Machine is a digital archive of the World Wide Web founded by the Internet Archive, a nonprofit library based in San Francisco. It allows users to go back in time and see how websites looked in the past, and it has saved billions of pages. That is its role to this date.").

Definition live_block : block :=
  (tag_p,
   lit "The Wayback Machine is a digital archive of the World Wide Web founded by the Internet Archive, a nonprofit library based in San Francisco. It allows users to go back in time and see how websites looked in the past, and it has saved billions of pages. Researchers and journalists use it to check old quotes. That is its role to this date.").

(** ** The word difference the specification names *)

(** A run of word characters of [s] that no word character precedes or
    follows, with the character class of the code. *)
Definition maximal_word_run (s w : text) : Prop :=
  w <> []
  /\ Forall (fun c => is_word c = true) w
  /\ exists before after,
       s = before ++ w ++ after
       /\ (forall b c, before = b ++ [c] -> is_word c = false)
       /\ (forall c a, after = c :: a -> is_word c = false).

(** Following the specification, not the code.  The word characters are
    the letters, the digits and the underscore; by code point, on
    U+0000..U+00FF: 0-9, A-Z, the underscore, a-z, the two ordinal
    indicators, the superscripts 1, 2 and 3, the micro sign, the three
    vulgar fractions and the letters of U+00C0..U+00FF, which leaves the
    multiplication and the division sign out. *)
Definition word_character (c : ascii) : Prop :=
  let n := nat_of_ascii c in
  48 <= n <= 57 \/ 65 <= n <= 90 \/ n = 95 \/ 97 <= n <= 122
  \/ n = 170 \/ n = 178 \/ n = 179 \/ n = 181 \/ n = 185 \/ n = 186
  \/ 188 <= n <= 190 \/ 192 <= n <= 214 \/ 216 <= n <= 246
  \/ 248 <= n <= 255.

(** [d] is [c] with its case folded: an upper-case letter (A-Z and, in
    U+00C0..U+00DE, all but the multiplication sign) becomes the letter 32
    code points above, any other character is kept. *)
Definition case_folded_char (c d : ascii) : Prop :=
  let n := nat_of_ascii c in
  let upper := 65 <= n <= 90 \/ 192 <= n <= 214 \/ 216 <= n <= 222 in
  (upper /\ nat_of_ascii d = n + 32) \/ (~ upper /\ d = c).

Definition case_folded (s t : text) : Prop := Forall2 case_folded_char s t.

(** [w] is a word of [s]: a run of word characters of [s] that no word
    character precedes or follows. *)
Definition word_at (s w : text) : Prop :=
  w <> []
  /\ Forall word_character w
  /\ exists before after,
       s = before ++ w ++ after
       /\ (forall b c, before = b ++ [c] -> ~ word_character c)
       /\ (forall c a, after = c :: a -> ~ word_character c).

(** The case-folded word sets of the two texts differ in at least [n]
    words: [n] distinct words are words of exactly one of the two texts,
    once their case is folded. *)
Definition differ_in_words (n : nat) (new_text old_text : text) : Prop :=
  exists new_folded old_folded l,
    case_folded new_text new_folded /\ case_folded old_text old_folded
    /\ NoDup l /\ n <= length l
    /\ forall w, In w l ->
         (word_at new_folded w /\ ~ word_at old_folded w)
         \/ (word_at old_folded w /\ ~ word_at new_folded w).

(** The [modified] entry of a pair of blocks. *)
Definition entry_of (pr : block * block) : change :=
  {| old := excerpt (fst pr); new := excerpt (snd pr) |}.

(** * Properties *)

(** ** The exception monad *)

Lemma text_eqb_eq a b : text_eqb a b = true <-> a = b.
Proof. unfold text_eqb. destruct (text_eq_dec a b); split; congruence. Qed.

Lemma text_eqb_refl a : text_eqb a a = true.
Proof. now apply text_eqb_eq. Qed.

Lemma text_eqb_neq a b : text_eqb a b = false <-> a <> b.
Proof. unfold text_eqb. destruct (text_eq_dec a b); split; congruence. Qed.

Lemma set_mem_In w s : set_mem w s = true <-> In w s.
Proof. unfold set_mem. destruct (in_dec text_eq_dec w s); split; congruence. Qed.

Lemma set_mem_not_In w s : set_mem w s = false <-> ~ In w s.
Proof. unfold set_mem. destruct (in_dec text_eq_dec w s); split; congruence. Qed.

Lemma for_each_total {A B : Type} (l : list A) (body : A -> py (list B)) :
  (forall x, In x l -> exists r, body x = inr r) ->
  exists rs, for_each l body = inr rs.
Proof.
  induction l as [|x l IH]; intros H; simpl.
  - now exists [].
  - destruct (H x (or_introl eq_refl)) as [r Hr].
    destruct IH as [rs Hrs]; [intros; apply H; now right|].
    exists (r ++ rs). now rewrite Hr, Hrs.
Qed.

Lemma for_each_In {A B : Type} (l : list A) (body : A -> py (list B)) rs :
  for_each l body = inr rs ->
  forall y, In y rs <-> exists x r, In x l /\ body x = inr r /\ In y r.
Proof.
  revert rs. induction l as [|x l IH]; simpl; intros rs H y.
  - inversion H; subst. split; [intros []|intros (? & ? & [] & _)].
  - unfold bind, ret in H. destruct (body x) as [e|r] eqn:Hx; [discriminate|].
    destruct (for_each l body) as [e|rs'] eqn:Hl; [discriminate|].
    inversion H; subst. rewrite in_app_iff, (IH rs' eq_refl). split.
    + intros [Hy|(x' & r' & Hin & Hb & Hy)].
      * exists x, r. tauto.
      * exists x', r'. tauto.
    + intros (x' & r' & [<-|Hin] & Hb & Hy).
      * left. congruence.
      * right. now exists x', r'.
Qed.

Lemma for_each_nil_bodies {A B : Type} (l : list A) (body : A -> py (list B)) :
  (forall x, In x l -> body x = inr []) -> for_each l body = inr [].
Proof.
  induction l as [|x l IH]; intros H; simpl; [reflexivity|].
  rewrite (H x (or_introl eq_refl)). simpl.
  rewrite IH; [reflexivity|]. intros; apply H; now right.
Qed.

(** ** The lookup maps *)

Lemma dict_append_keys k item m :
  dict_keys (dict_append k item m)
  = if set_mem k (dict_keys m) then dict_keys m else dict_keys m ++ [k].
Proof.
  induction m as [|[k' items] m IH].
  - reflexivity.
  - cbn [dict_append dict_keys map fst].
    change (map fst m) with (dict_keys m).
    destruct (text_eqb k k') eqn:E.
    + apply text_eqb_eq in E. subst.
      replace (set_mem k' (k' :: dict_keys m)) with true; [reflexivity|].
      symmetry. apply set_mem_In. now left.
    + apply text_eqb_neq in E. cbn [dict_keys map fst].
      change (map fst (dict_append k item m))
        with (dict_keys (dict_append k item m)).
      rewrite IH.
      destruct (set_mem k (dict_keys m)) eqn:E1.
      * replace (set_mem k (k' :: dict_keys m)) with true; [reflexivity|].
        symmetry. apply set_mem_In. right. now apply set_mem_In.
      * replace (set_mem k (k' :: dict_keys m)) with false; [reflexivity|].
        symmetry. apply set_mem_not_In. apply set_mem_not_In in E1.
        intros [Heq|Hin]; [congruence|contradiction].
Qed.

Lemma dict_append_entries k item m key bs :
  NoDup (dict_keys m) ->
  In (key, bs) (dict_append k item m) ->
  (key <> k /\ In (key, bs) m)
  \/ (key = k /\ ((exists bs0, In (k, bs0) m /\ bs = bs0 ++ [item])
                  \/ (~ In k (dict_keys m) /\ bs = [item]))).
Proof.
  induction m as [|[k' items] m IH]; simpl; intros ND H.
  - destruct H as [H|[]]. inversion H; subst. right. split; [reflexivity|].
    right. split; [tauto|reflexivity].
  - inversion ND as [|? ? Hnotin ND']; subst.
    destruct (text_eqb k k') eqn:E.
    + apply text_eqb_eq in E. subst k'. destruct H as [H|H].
      * inversion H; subst. right. split; [reflexivity|]. left.
        exists items. split; [now left|reflexivity].
      * left. split; [|now right]. intros ->. apply Hnotin.
        change k with (fst (k, bs)). now apply in_map.
    + apply text_eqb_neq in E. destruct H as [H|H].
      * inversion H; subst. left. split; [congruence|now left].
      * destruct (IH ND' H) as [[Hne Hin]|[-> [(bs0 & Hin & ->)|[Hn ->]]]].
        -- left. split; [assumption|now right].
        -- right. split; [reflexivity|]. left. exists bs0.
           split; [now right|reflexivity].
        -- right. split; [reflexivity|]. right. split; [|reflexivity].
           intros [Heq|Hin]; [congruence|contradiction].
Qed.

Lemma filter_none {A : Type} (f : A -> bool) (l : list A) :
  (forall x, In x l -> f x = false) -> filter f l = [].
Proof.
  induction l as [|x l IH]; intros H; simpl; [reflexivity|].
  rewrite (H x (or_introl eq_refl)). apply IH. intros; apply H; now right.
Qed.

Lemma has_key_true k b : has_key k b = true <-> key_of b = k.
Proof. apply text_eqb_eq. Qed.

Lemma key_in_app k seen item : key_in k seen -> key_in k (seen ++ [item]).
Proof.
  intros (b & Hb & Hk). exists b. split; [|assumption].
  apply in_or_app. now left.
Qed.

Lemma map_of_step seen m item :
  map_of seen m -> map_of (seen ++ [item]) (map_step m item).
Proof.
  intros (ND & Hent & Hall). unfold map_step.
  fold (key_of item). destruct (length (key_of item) <? 30) eqn:Hlen.
  - apply Nat.ltb_lt in Hlen. split; [assumption|]. split.
    + intros k bs Hin. destruct (Hent k bs Hin) as (-> & Hk & Hki).
      split; [|split; [assumption|now apply key_in_app]].
      rewrite filter_app. simpl.
      destruct (has_key k item) eqn:E; [|now rewrite app_nil_r].
      apply has_key_true in E. subst k. lia.
    + intros b Hb Hlong. apply in_app_or in Hb.
      destruct Hb as [Hb|[<-|[]]]; [now apply Hall|lia].
  - apply Nat.ltb_ge in Hlen. split; [|split].
    + rewrite dict_append_keys.
      destruct (set_mem (key_of item) (dict_keys m)) eqn:E; [assumption|].
      apply set_mem_not_In in E.
      apply NoDup_app; [assumption|repeat constructor; intros []|].
      intros x Hx [<-|[]]. contradiction.
    + intros k bs Hin.
      destruct (dict_append_entries _ _ _ _ _ ND Hin)
        as [[Hne Hin']|[-> [(bs0 & Hin' & ->)|[Hn ->]]]].
      * destruct (Hent k bs Hin') as (-> & Hk & Hki).
        split; [|split; [assumption|now apply key_in_app]].
        rewrite filter_app. simpl.
        destruct (has_key k item) eqn:E; [|now rewrite app_nil_r].
        apply has_key_true in E. congruence.
      * destruct (Hent _ _ Hin') as (-> & Hk & Hki).
        split; [|split; [assumption|now apply key_in_app]].
        rewrite filter_app. simpl.
        now rewrite (proj2 (has_key_true (key_of item) item) eq_refl).
      * split; [|split; [assumption|]].
        -- rewrite filter_app. simpl.
           rewrite (proj2 (has_key_true (key_of item) item) eq_refl).
           replace (filter (has_key (key_of item)) seen) with (@nil block);
             [reflexivity|].
           symmetry. apply filter_none. intros b Hb.
           destruct (has_key (key_of item) b) eqn:E; [|reflexivity].
           apply has_key_true in E. exfalso. apply Hn. rewrite <- E.
           apply Hall; [assumption|]. rewrite E. assumption.
        -- exists item. split; [|reflexivity]. apply in_or_app. right. now left.
    + intros b Hb Hlong. rewrite dict_append_keys.
      apply in_app_or in Hb.
      destruct (set_mem (key_of item) (dict_keys m)) eqn:E.
      * destruct Hb as [Hb|[<-|[]]]; [now apply Hall|].
        now apply set_mem_In.
      * apply in_or_app. destruct Hb as [Hb|[<-|[]]].
        -- left. now apply Hall.
        -- right. now left.
Qed.

Lemma map_of_fold items : forall seen m,
  map_of seen m -> map_of (seen ++ items) (fold_left map_step items m).
Proof.
  induction items as [|item items IH]; intros seen m H; simpl.
  - now rewrite app_nil_r.
  - replace (seen ++ item :: items) with ((seen ++ [item]) ++ items)
      by (now rewrite <- app_assoc).
    apply IH. now apply map_of_step.
Qed.

Lemma normalized_map_ok items : map_of items (normalized_map items).
Proof.
  apply (map_of_fold items [] []).
  split; [constructor|]. split; [intros ? ? []|intros ? []].
Qed.

Lemma normalized_map_keys items k :
  In k (dict_keys (normalized_map items))
  <-> 30 <= length k /\ key_in k items.
Proof.
  destruct (normalized_map_ok items) as (ND & Hent & Hall). split.
  - intros H. apply in_map_iff in H. destruct H as ([k' bs] & <- & Hin).
    destruct (Hent _ _ Hin) as (_ & Hk & Hki). now split.
  - intros (Hk & b & Hb & <-). now apply Hall.
Qed.

Lemma dict_get_entry m k bs :
  NoDup (dict_keys m) -> In (k, bs) m -> dict_get k m = inr bs.
Proof.
  induction m as [|[k' items] m IH]; simpl; intros ND H; [contradiction|].
  inversion ND as [|? ? Hnotin ND']; subst. destruct H as [H|H].
  - inversion H; subst. now rewrite text_eqb_refl.
  - destruct (text_eqb k k') eqn:E.
    + apply text_eqb_eq in E. subst. exfalso. apply Hnotin.
      change k' with (fst (k', bs)). now apply in_map.
    + now apply IH.
Qed.

Lemma normalized_map_get items k :
  In k (dict_keys (normalized_map items)) ->
  dict_get k (normalized_map items) = inr (filter (has_key k) items).
Proof.
  intros H. destruct (normalized_map_ok items) as (ND & Hent & _).
  apply in_map_iff in H. destruct H as ([k' bs] & Hk & Hin).
  simpl in Hk. subst k'. destruct (Hent _ _ Hin) as (-> & _).
  now apply dict_get_entry.
Qed.

Lemma filter_has_key_twice k k' items :
  filter (has_key k) (filter (has_key k') items)
  = if text_eqb k k' then filter (has_key k) items else [].
Proof.
  destruct (text_eqb k k') eqn:E.
  - apply text_eqb_eq in E. subst. induction items as [|b items IH]; simpl.
    + reflexivity.
    + destruct (has_key k' b) eqn:Hb; simpl; [rewrite Hb|]; now rewrite IH.
  - apply text_eqb_neq in E. apply filter_none. intros b Hb.
    apply filter_In in Hb. destruct Hb as [_ Hb]. apply has_key_true in Hb.
    destruct (has_key k b) eqn:Hk; [|reflexivity].
    apply has_key_true in Hk. congruence.
Qed.

(** The blocks with key [k] among those one of the first two report loops
    emits: all the blocks of [k], or none. *)
Lemma unmatched_items_filter items other k :
  filter (has_key k) (unmatched_items (normalized_map items) other)
  = if set_mem k (dict_keys (normalized_map items))
       && negb (dict_mem k other) && (50 <? length k)
    then filter (has_key k) items else [].
Proof.
  destruct (normalized_map_ok items) as (ND & Hent & _).
  assert (Hent' : forall k' bs, In (k', bs) (normalized_map items) ->
                    bs = filter (has_key k') items)
    by (intros; now apply Hent).
  clear Hent. unfold unmatched_items.
  induction (normalized_map items) as [|[k' bs] m IH].
  - reflexivity.
  - inversion ND as [|? ? Hnotin ND']; subst.
    cbn [flat_map dict_keys map fst]. change (map fst m) with (dict_keys m).
    rewrite filter_app, IH; [|assumption|intros; apply Hent'; now right].
    rewrite (Hent' k' bs (or_introl eq_refl)).
    destruct (text_eqb k k') eqn:E.
    + apply text_eqb_eq in E. subst k'.
      replace (set_mem k (k :: dict_keys m)) with true
        by (symmetry; apply set_mem_In; now left).
      replace (set_mem k (dict_keys m)) with false
        by (symmetry; now apply set_mem_not_In).
      cbn [andb]. rewrite app_nil_r.
      destruct (negb (dict_mem k other)); [|reflexivity].
      destruct (50 <? length k); [|reflexivity].
      rewrite filter_has_key_twice. now rewrite text_eqb_refl.
    + replace (set_mem k (k' :: dict_keys m)) with (set_mem k (dict_keys m)).
      * destruct (negb (dict_mem k' other)); [|reflexivity].
        destruct (50 <? length k'); [|reflexivity].
        rewrite filter_has_key_twice, E. reflexivity.
      * apply text_eqb_neq in E.
        destruct (set_mem k (dict_keys m)) eqn:E1; symmetry.
        -- apply set_mem_In. right. now apply set_mem_In.
        -- apply set_mem_not_In. apply set_mem_not_In in E1.
           intros [Heq|Hin]; [congruence|contradiction].
Qed.

Lemma unmatched_items_In items other b :
  In b (unmatched_items (normalized_map items) other) ->
  In b items /\ 50 < length (key_of b) /\ dict_mem (key_of b) other = false.
Proof.
  intros H.
  assert (Hf : In b (filter (has_key (key_of b))
                       (unmatched_items (normalized_map items) other)))
    by (apply filter_In; split; [assumption|now apply has_key_true]).
  rewrite unmatched_items_filter in Hf.
  destruct (set_mem _ _); [|contradiction].
  destruct (dict_mem (key_of b) other); [contradiction|].
  destruct (50 <? length (key_of b)) eqn:E; [|contradiction].
  apply filter_In in Hf. apply Nat.ltb_lt in E. tauto.
Qed.

(** ** The sequence matcher: the recursion on windows ends *)

Lemma new_j2len_bound b x blo bhi n : forall bs j diag j2len,
  diag <= n -> Forall (fun v => v <= n) j2len ->
  Forall (fun v => v <= S n)
    (SequenceMatcher.new_j2len b x blo bhi j bs diag j2len).
Proof.
  induction bs as [|y bs IH]; intros j diag j2len Hd Hrow; simpl.
  - constructor.
  - constructor.
    + destruct (_ && _); lia.
    + apply IH.
      * destruct Hrow; simpl; lia.
      * destruct Hrow; simpl; [constructor|assumption].
Qed.

Lemma update_best_within alo i : forall row j best,
  alo <= i -> within alo (S i) best ->
  Forall (fun k => k <= S i - alo) row ->
  within alo (S i) (SequenceMatcher.update_best i j row best).
Proof.
  induction row as [|k row IH]; intros j [[bi bj] bk] Hi Hb Hrow; simpl.
  - assumption.
  - inversion Hrow as [|? ? Hk Hrow']; subst. apply IH; [assumption| |assumption].
    destruct (bk <? k) eqn:E; [|assumption].
    apply Nat.ltb_lt in E. unfold within. lia.
Qed.

Lemma scan_rows_within b blo bhi alo : forall as_ i j2len best,
  alo <= i -> within alo i best ->
  Forall (fun v => v <= i - alo) j2len ->
  within alo (i + length as_)
    (SequenceMatcher.scan_rows b blo bhi i as_ j2len best).
Proof.
  induction as_ as [|x as_ IH]; intros i j2len best Hi Hb Hrow; simpl.
  - rewrite Nat.add_0_r. assumption.
  - replace (i + S (length as_)) with (S i + length as_) by lia.
    assert (Hnew : Forall (fun v => v <= S i - alo)
                     (SequenceMatcher.new_j2len b x blo bhi 0 b 0 j2len)).
    { replace (S i - alo) with (S (i - alo)) by lia.
      apply new_j2len_bound; [lia|assumption]. }
    apply IH; [lia| |assumption].
    apply update_best_within; [assumption| |assumption].
    destruct best as [[bi bj] bk]. unfold within in *. lia.
Qed.

Lemma extend_left_within a b alo blo top : forall besti bestj bestsize,
  within alo top (besti, bestj, bestsize) ->
  within alo top
    (SequenceMatcher.extend_left a b alo blo besti bestj bestsize).
Proof.
  induction besti as [|i' IH]; intros bestj bestsize H; simpl.
  - assumption.
  - destruct (_ && _) eqn:E; [|assumption].
    apply andb_true_iff in E. destruct E as [E _].
    apply andb_true_iff in E. destruct E as [E _].
    apply Nat.ltb_lt in E. apply IH. unfold within in *. lia.
Qed.

Lemma extend_right_bound a b ahi bhi besti bestj : forall room bestsize,
  besti + bestsize <= ahi ->
  bestsize
  <= SequenceMatcher.extend_right a b ahi bhi besti bestj room bestsize
  /\ besti
     + SequenceMatcher.extend_right a b ahi bhi besti bestj room bestsize
     <= ahi.
Proof.
  induction room as [|room IH]; intros bestsize H; simpl.
  - lia.
  - destruct (_ && _) eqn:E; [|lia].
    apply andb_true_iff in E. destruct E as [E _].
    apply andb_true_iff in E. destruct E as [E _].
    apply Nat.ltb_lt in E. destruct (IH (bestsize + 1)); lia.
Qed.

(** The longest match of a window lies in the window. *)
Lemma find_longest_match_within a b alo ahi blo bhi :
  alo <= ahi ->
  within alo ahi (SequenceMatcher.find_longest_match a b alo ahi blo bhi).
Proof.
  intros Hle. unfold SequenceMatcher.find_longest_match.
  pose proof (scan_rows_within b blo bhi alo
                (firstn (ahi - alo) (skipn alo a)) alo [] (alo, blo, 0))
    as Hscan.
  destruct (SequenceMatcher.scan_rows b blo bhi alo
              (firstn (ahi - alo) (skipn alo a)) [] (alo, blo, 0))
    as [[i0 j0] k0].
  assert (H0 : within alo ahi (i0, j0, k0)).
  { assert (Hlen : length (firstn (ahi - alo) (skipn alo a)) <= ahi - alo)
      by (rewrite length_firstn; lia).
    unfold within in *. destruct Hscan as [H1 H2];
      [lia|lia|constructor|lia]. }
  pose proof (extend_left_within a b alo blo ahi i0 j0 k0 H0) as Hl.
  destruct (SequenceMatcher.extend_left a b alo blo i0 j0 k0)
    as [[i1 j1] k1].
  unfold within in *. destruct Hl as [Hl1 Hl2]. split; [assumption|].
  apply extend_right_bound. assumption.
Qed.

(** Any fuel above the width of the window gives the same sum: the
    recursion never stops for lack of fuel. *)
Lemma matching_size_enough_fuel a b : forall fuel1 fuel2 alo ahi blo bhi,
  alo <= ahi -> ahi - alo < fuel1 -> ahi - alo < fuel2 ->
  SequenceMatcher.matching_size fuel1 a b alo ahi blo bhi
  = SequenceMatcher.matching_size fuel2 a b alo ahi blo bhi.
Proof.
  induction fuel1 as [|fuel1 IH]; intros fuel2 alo ahi blo bhi Hle H1 H2;
    [lia|].
  destruct fuel2 as [|fuel2]; [lia|].
  cbn [SequenceMatcher.matching_size].
  pose proof (find_longest_match_within a b alo ahi blo bhi Hle) as Hw.
  destruct (SequenceMatcher.find_longest_match a b alo ahi blo bhi)
    as [[i j] k].
  unfold within in Hw. destruct Hw as [Hw1 Hw2].
  destruct (k =? 0) eqn:Hk; [reflexivity|].
  apply Nat.eqb_neq in Hk. f_equal; [f_equal|].
  - destruct ((alo <? i) && (blo <? j)); [|reflexivity].
    apply IH; lia.
  - destruct ((i + k <? ahi) && (j + k <? bhi)) eqn:E; [|reflexivity].
    apply andb_true_iff in E. destruct E as [E _]. apply Nat.ltb_lt in E.
    apply IH; lia.
Qed.

Lemma matches_any_fuel a b fuel :
  length a < fuel ->
  SequenceMatcher.matching_size fuel a b 0 (length a) 0 (length b)
  = SequenceMatcher.matches a b.
Proof.
  intros H. unfold SequenceMatcher.matches.
  apply matching_size_enough_fuel; lia.
Qed.

(** ** The best-match search *)

Lemma Qltb_lt x y : Qltb x y = true <-> (x < y)%Q.
Proof.
  unfold Qltb. rewrite negb_true_iff. split.
  - intros H. apply Qnot_le_lt. intros Hle.
    apply Qle_bool_iff in Hle. congruence.
  - intros H. destruct (Qle_bool y x) eqn:E; [|reflexivity].
    apply Qle_bool_iff in E. exfalso. now apply (Qlt_not_le x y).
Qed.

Lemma Qltb_ge x y : Qltb x y = false <-> (y <= x)%Q.
Proof.
  unfold Qltb. rewrite negb_false_iff. apply Qle_bool_iff.
Qed.

(** The pre-filter of the code is the comparison of the two lengths. *)
Lemma survives_prefilter_spec new_norm old_norm :
  survives_prefilter new_norm old_norm
  <-> length_ratio_at_least_075 new_norm old_norm.
Proof.
  unfold survives_prefilter, length_ratio, length_ratio_at_least_075.
  set (lo := Nat.min (length new_norm) (length old_norm)).
  set (hi := Nat.max (length new_norm) (length old_norm)).
  destruct (hi =? 0) eqn:E.
  - apply Nat.eqb_eq in E. split.
    + intros (r & H & _). discriminate H.
    + intros [H _]. lia.
  - apply Nat.eqb_neq in E.
    assert (HT : Z.pos (Pos.of_nat hi) = Z.of_nat hi)
      by (rewrite <- positive_nat_Z, Nat2Pos.id; [reflexivity|assumption]).
    split.
    + intros (r & H & Hr). inversion H; subst r. clear H.
      unfold Qle in Hr. cbn [Qnum Qden] in Hr. rewrite HT in Hr.
      split; lia.
    + intros [_ H]. eexists. split; [reflexivity|].
      unfold Qle. cbn [Qnum Qden]. rewrite HT. lia.
Qed.

Lemma length_ratio_defined new_norm old_norm :
  0 < Nat.max (length new_norm) (length old_norm) ->
  exists r, length_ratio new_norm old_norm = inr r.
Proof.
  intros H. unfold length_ratio.
  destruct (Nat.max (length new_norm) (length old_norm) =? 0) eqn:E.
  - apply Nat.eqb_eq in E. lia.
  - eexists. reflexivity.
Qed.

(** The search returns, and what it returns: the similarity never
    decreases; every candidate that passed the pre-filter has a similarity
    at most the final one, or at most 0.75; and the final choice is the
    initial one or a candidate that passed the pre-filter, with exactly
    its similarity, above 0.75. *)
Lemma best_match_spec new_norm : forall olds best0 s0,
  (forall o, In o olds -> 0 < length o) ->
  exists best s,
    best_match new_norm olds best0 s0 = inr (best, s)
    /\ (s0 <= s)%Q
    /\ (forall o, In o olds -> survives_prefilter new_norm o ->
          (SequenceMatcher.ratio new_norm o <= s)%Q
          \/ (SequenceMatcher.ratio new_norm o <= 3 # 4)%Q)
    /\ ((best = best0 /\ s = s0)
        \/ exists o, In o olds /\ best = Some o
             /\ survives_prefilter new_norm o
             /\ s = SequenceMatcher.ratio new_norm o /\ (3 # 4 < s)%Q).
Proof.
  induction olds as [|o olds IH]; intros best0 s0 Hpos.
  - exists best0, s0. simpl. split; [reflexivity|]. split; [apply Qle_refl|].
    split; [intros ? []|now left].
  - assert (Hpos' : forall o', In o' olds -> 0 < length o')
      by (intros; apply Hpos; now right).
    destruct (length_ratio_defined new_norm o) as [r Hr].
    { specialize (Hpos o (or_introl eq_refl)). lia. }
    cbn [best_match]. rewrite Hr. cbn [bind].
    destruct (Qltb r (3 # 4)) eqn:Hpre.
    + destruct (IH best0 s0 Hpos') as (best & s & Hbm & Hle & Hmax & Hsel).
      exists best, s. split; [assumption|]. split; [assumption|]. split.
      * intros o' [<-|Hin] Hs; [|now apply Hmax].
        destruct Hs as (r' & Hr' & Hge). rewrite Hr in Hr'.
        inversion Hr'; subst r'. apply Qltb_lt in Hpre. exfalso.
        now apply (Qlt_not_le r (3 # 4)).
      * destruct Hsel as [Hsel|(o' & Hin & Hrest)]; [now left|].
        right. exists o'. split; [now right|assumption].
    + assert (Hsurv : survives_prefilter new_norm o)
        by (exists r; split; [assumption|now apply Qltb_ge]).
      destruct (Qltb s0 (SequenceMatcher.ratio new_norm o)
                && Qltb (3 # 4) (SequenceMatcher.ratio new_norm o)) eqn:Hup.
      * apply andb_true_iff in Hup. destruct Hup as [Hlt Hgt].
        apply Qltb_lt in Hlt. apply Qltb_lt in Hgt.
        destruct (IH (Some o) (SequenceMatcher.ratio new_norm o) Hpos')
          as (best & s & Hbm & Hle & Hmax & Hsel).
        exists best, s. split; [assumption|]. split.
        { apply Qle_trans with (SequenceMatcher.ratio new_norm o);
            [now apply Qlt_le_weak|assumption]. }
        split.
        -- intros o' [<-|Hin] Hs; [now left|now apply Hmax].
        -- right. destruct Hsel as [[-> ->]|(o' & Hin & Hrest)].
           ++ exists o. split; [now left|]. repeat split; assumption.
           ++ exists o'. split; [now right|assumption].
      * destruct (IH best0 s0 Hpos') as (best & s & Hbm & Hle & Hmax & Hsel).
        exists best, s. split; [assumption|]. split; [assumption|]. split.
        -- intros o' [<-|Hin] Hs; [|now apply Hmax].
           apply andb_false_iff in Hup. destruct Hup as [Hup|Hup];
             apply Qltb_ge in Hup.
           ++ left. now apply Qle_trans with s0.
           ++ now right.
        -- destruct Hsel as [Hsel|(o' & Hin & Hrest)]; [now left|].
           right. exists o'. split; [now right|assumption].
Qed.

(** What an accepted match satisfies. *)
Lemma accepted_match_spec olds new_norm best :
  (forall o, In o olds -> 0 < length o) ->
  accepted_match olds new_norm best ->
  In best olds
  /\ survives_prefilter new_norm best
  /\ (3 # 4 < SequenceMatcher.ratio new_norm best)%Q
  /\ (SequenceMatcher.ratio new_norm best < 9 # 10)%Q
  /\ forall o, In o olds -> survives_prefilter new_norm o ->
       (SequenceMatcher.ratio new_norm o
        <= SequenceMatcher.ratio new_norm best)%Q.
Proof.
  intros Hpos (Hnotin & s & Hbm & Hne & Hlo & Hhi).
  destruct (best_match_spec new_norm olds None 0%Q Hpos)
    as (best' & s' & Hbm' & _ & Hmax & Hsel).
  rewrite Hbm in Hbm'. inversion Hbm'; subst best' s'. clear Hbm'.
  destruct Hsel as [[Hb _]|(o & Hin & Hb & Hsurv & Hs & _)]; [discriminate|].
  inversion Hb; subst o. subst s.
  repeat split; try assumption.
  intros o Ho Hso. destruct (Hmax o Ho Hso) as [H|H]; [assumption|].
  apply Qle_trans with (3 # 4); [assumption|now apply Qlt_le_weak].
Qed.

Lemma for_each_pure {A B : Type} (l : list A) (body : A -> py (list B)) f :
  (forall x, In x l -> body x = inr (f x)) ->
  for_each l body = inr (flat_map f l).
Proof.
  induction l as [|x l IH]; intros H; simpl; [reflexivity|].
  rewrite (H x (or_introl eq_refl)). cbn [bind].
  rewrite IH; [reflexivity|]. intros; apply H; now right.
Qed.

Lemma verified_pairs_In new_item old_items ob nb :
  In (ob, nb) (verified_pairs new_item old_items)
  <-> nb = new_item /\ In ob old_items
      /\ significant_pair (snd nb) (snd ob) = true.
Proof.
  unfold verified_pairs. rewrite in_flat_map. split.
  - intros (o & Ho & Hin).
    destruct (significant_pair (snd new_item) (snd o)) eqn:E; [|contradiction].
    destruct Hin as [Hin|[]]. inversion Hin; subst. tauto.
  - intros (-> & Ho & Hs). exists ob. split; [assumption|].
    rewrite Hs. now left.
Qed.

(** ** The word sets *)

Lemma set_minus_In w a b : In w (set_minus a b) <-> In w a /\ ~ In w b.
Proof.
  unfold set_minus. rewrite filter_In, negb_true_iff, set_mem_not_In. tauto.
Qed.

Lemma set_of_In w l : In w (set_of l) <-> In w l.
Proof. apply nodup_In. Qed.

(** [len(added_words) + len(removed_words)] counts the symmetric
    difference of the two word sets. *)
Lemma word_changes_symmetric_difference new_text old_text :
  word_changes new_text old_text
  = symmetric_difference_card new_text old_text.
Proof.
  unfold word_changes, symmetric_difference_card.
  set (nw := findall_words (lower new_text)).
  set (ow := findall_words (lower old_text)).
  rewrite <- length_app. apply Permutation_length.
  apply NoDup_Permutation.
  - apply NoDup_app.
    + apply NoDup_filter, NoDup_nodup.
    + apply NoDup_filter, NoDup_nodup.
    + intros w H1 H2. apply set_minus_In in H1, H2.
      rewrite !set_of_In in H1, H2. tauto.
  - apply NoDup_nodup.
  - intros w. rewrite in_app_iff, !set_minus_In, !set_of_In, ?nodup_In.
    rewrite filter_In, in_app_iff.
    destruct (in_dec text_eq_dec w nw) as [i1|n1];
      [rewrite (proj2 (set_mem_In _ _) i1)
      |rewrite (proj2 (set_mem_not_In _ _) n1)];
      (destruct (in_dec text_eq_dec w ow) as [i2|n2];
       [rewrite (proj2 (set_mem_In _ _) i2)
       |rewrite (proj2 (set_mem_not_In _ _) n2)]);
      cbn [xorb]; intuition congruence.
Qed.

Lemma significant_pair_spec new_text old_text :
  significant_pair new_text old_text = true
  <-> 5 <= symmetric_difference_card new_text old_text
      /\ (50 < length_diff new_text old_text)%Z.
Proof.
  unfold significant_pair.
  rewrite andb_true_iff, Nat.leb_le, Z.ltb_lt,
    word_changes_symmetric_difference.
  reflexivity.
Qed.

(** ** The words of a text *)

Lemma boundary_after_nonword (l : text) c :
  is_word c = false ->
  (forall b c', l = b ++ [c'] -> is_word c' = false) ->
  forall b c', c :: l = b ++ [c'] -> is_word c' = false.
Proof.
  intros Hc Hl b c' E. destruct b as [|x b].
  - simpl in E. inversion E; subst. exact Hc.
  - simpl in E. inversion E; subst. now apply (Hl b c').
Qed.

Lemma boundary_app (x y : text) :
  y <> [] ->
  (forall b c, y = b ++ [c] -> is_word c = false) ->
  forall b c, x ++ y = b ++ [c] -> is_word c = false.
Proof.
  intros Hne Hy b c E.
  destruct (exists_last Hne) as (y' & c' & ->).
  rewrite app_assoc in E. apply app_inj_tail in E. destruct E as [_ <-].
  now apply (Hy y' c').
Qed.

(** A word the scan returns is a word of the text. *)
Lemma findall_words_from_sound w : forall s cur,
  Forall (fun c => is_word c = true) cur ->
  In w (findall_words_from cur s) ->
  w <> []
  /\ Forall (fun c => is_word c = true) w
  /\ exists before after,
       rev cur ++ s = before ++ w ++ after
       /\ (forall b c, before = b ++ [c] -> is_word c = false)
       /\ (forall c a, after = c :: a -> is_word c = false).
Proof.
  assert (Hrun : forall (cur : text) x (after : text),
            Forall (fun c => is_word c = true) (x :: cur) ->
            (forall c a, after = c :: a -> is_word c = false) ->
            rev (x :: cur) <> []
            /\ Forall (fun c => is_word c = true) (rev (x :: cur))
            /\ exists before after',
                 rev (x :: cur) ++ after = before ++ rev (x :: cur) ++ after'
                 /\ (forall b c, before = b ++ [c] -> is_word c = false)
                 /\ (forall c a, after' = c :: a -> is_word c = false)).
  { intros cur x after Hcur Hafter. split; [|split].
    - simpl. intros H. now apply app_eq_nil in H.
    - now apply Forall_rev.
    - exists [], after. split; [reflexivity|]. split; [|assumption].
      intros b c H. now destruct b. }
  induction s as [|c s IH]; intros cur Hcur Hin.
  - destruct cur as [|x cur]; [contradiction|].
    destruct Hin as [<-|[]]. apply Hrun; [assumption|]. intros; discriminate.
  - cbn [findall_words_from] in Hin. destruct (is_word c) eqn:E.
    + destruct (IH (c :: cur)) as (H1 & H2 & before & after & H3 & H4);
        [now constructor|assumption|].
      split; [assumption|]. split; [assumption|].
      exists before, after. split; [|assumption].
      rewrite <- H3. cbn [rev]. now rewrite <- app_assoc.
    + assert (Hlater : In w (findall_words_from [] s) ->
                w <> []
                /\ Forall (fun c0 => is_word c0 = true) w
                /\ exists before after,
                     rev cur ++ c :: s = before ++ w ++ after
                     /\ (forall b c0, before = b ++ [c0] ->
                           is_word c0 = false)
                     /\ (forall c0 a, after = c0 :: a ->
                           is_word c0 = false)).
      { intros H. destruct (IH [] (Forall_nil _) H)
          as (H1 & H2 & before & after & H3 & H4 & H5).
        split; [assumption|]. split; [assumption|].
        exists (rev cur ++ c :: before), after. split; [|split].
        - cbn [rev app] in H3. rewrite H3, <- app_assoc. reflexivity.
        - apply boundary_app; [discriminate|].
          now apply boundary_after_nonword.
        - assumption. }
      destruct cur as [|x cur]; [now apply Hlater|].
      destruct Hin as [<-|Hin]; [|now apply Hlater].
      apply Hrun; [assumption|].
      intros c0 a H. inversion H; subst. exact E.
Qed.

Lemma findall_words_from_run w : forall cur rest,
  Forall (fun c => is_word c = true) w ->
  findall_words_from cur (w ++ rest)
  = findall_words_from (rev w ++ cur) rest.
Proof.
  induction w as [|x w IH]; intros cur rest Hw; [reflexivity|].
  inversion Hw as [|? ? Hx Hw']; subst.
  cbn [app findall_words_from rev]. rewrite Hx, IH by assumption.
  now rewrite <- app_assoc.
Qed.

Lemma findall_words_from_boundary : forall before cur t,
  before <> [] ->
  (forall b c, before = b ++ [c] -> is_word c = false) ->
  findall_words_from cur (before ++ t)
  = findall_words_from cur before ++ findall_words_from [] t.
Proof.
  induction before as [|x before IH]; intros cur t Hne Hb; [congruence|].
  destruct before as [|y before].
  - assert (Hx : is_word x = false) by (now apply (Hb [] x)).
    cbn [app findall_words_from]. rewrite Hx.
    destruct cur; reflexivity.
  - assert (Hb' : forall b c, y :: before = b ++ [c] -> is_word c = false).
    { intros b c E. apply (Hb (x :: b) c). simpl. now rewrite E. }
    change ((x :: y :: before) ++ t) with (x :: (y :: before) ++ t).
    cbn [findall_words_from]. destruct (is_word x).
    + apply IH; [discriminate|assumption].
    + destruct cur as [|z cur].
      * apply IH; [discriminate|assumption].
      * rewrite IH by (discriminate || assumption). reflexivity.
Qed.

Lemma findall_words_from_end cur :
  cur <> [] -> findall_words_from cur [] = [rev cur].
Proof. destruct cur; [congruence|reflexivity]. Qed.

Lemma findall_words_from_nonword cur c s :
  cur <> [] -> is_word c = false ->
  findall_words_from cur (c :: s) = rev cur :: findall_words_from [] s.
Proof.
  intros Hne Hc. cbn [findall_words_from]. rewrite Hc.
  destruct cur; [congruence|reflexivity].
Qed.

(** The words [re.findall] returns are the maximal runs of the text. *)
Lemma findall_words_runs s w :
  In w (findall_words s) <-> maximal_word_run s w.
Proof.
  unfold findall_words, maximal_word_run. split.
  - intros H. now apply (findall_words_from_sound w s [] (Forall_nil _)) in H.
  - intros (Hne & Hw & before & after & -> & Hb & Ha).
    assert (Hhere : In w (findall_words_from [] (w ++ after))).
    { rewrite findall_words_from_run by assumption. rewrite app_nil_r.
      assert (Hrev : rev w <> []).
      { intros H. apply Hne. apply (f_equal (@rev ascii)) in H.
        now rewrite rev_involutive in H. }
      destruct after as [|c a].
      - rewrite findall_words_from_end by assumption.
        left. apply rev_involutive.
      - rewrite findall_words_from_nonword
          by (assumption || exact (Ha c a eq_refl)).
        left. apply rev_involutive. }
    destruct before as [|x before]; [exact Hhere|].
    rewrite findall_words_from_boundary; [|discriminate|assumption].
    apply in_or_app. now right.
Qed.

(** The class [\w] of the code is the class of the word characters. *)
Lemma word_character_spec c : is_word c = true <-> word_character c.
Proof.
  unfold is_word, is_alpha, is_numeric, is_decimal, in_range, code,
    word_character.
  cbv zeta. generalize (nat_of_ascii c). intros n.
  rewrite !orb_true_iff, !andb_true_iff, !Nat.leb_le, !Nat.eqb_eq. lia.
Qed.

Lemma not_word_character_spec c : is_word c = false <-> ~ word_character c.
Proof.
  rewrite <- word_character_spec. destruct (is_word c); split; congruence.
Qed.

(** [str.lower] folds the case, character by character. *)
Lemma case_folded_char_spec c d : case_folded_char c d <-> d = lower_char c.
Proof.
  unfold case_folded_char, lower_char, in_range, code. cbv zeta.
  pose proof (ascii_nat_embedding d) as Hd.
  remember (nat_of_ascii c) as n eqn:En.
  destruct ((65 <=? n) && (n <=? 90) || (192 <=? n) && (n <=? 214)
            || (216 <=? n) && (n <=? 222)) eqn:E.
  - rewrite !orb_true_iff, !andb_true_iff, !Nat.leb_le in E. split.
    + intros [[_ H]|[H _]]; [|tauto]. now rewrite <- H, Hd.
    + intros ->. left. split; [tauto|].
      apply nat_ascii_embedding. lia.
  - rewrite !orb_false_iff, !andb_false_iff, !Nat.leb_gt in E. split.
    + intros [[H _]|[_ H]]; [lia|exact H].
    + intros ->. right. split; [lia|reflexivity].
Qed.

Lemma case_folded_spec s t : case_folded s t <-> t = lower s.
Proof.
  unfold case_folded, lower. split.
  - induction 1 as [|c d s t Hcd _ IH]; [reflexivity|].
    apply case_folded_char_spec in Hcd. cbn [map]. now rewrite Hcd, IH.
  - intros ->. induction s as [|c s IH]; constructor; [|exact IH].
    now apply case_folded_char_spec.
Qed.

Lemma word_at_spec s w : word_at s w <-> maximal_word_run s w.
Proof.
  unfold word_at, maximal_word_run. split.
  - intros (Hne & Hw & before & after & E & Hb & Ha).
    split; [assumption|]. split.
    + eapply Forall_impl; [|exact Hw]. intros c. apply word_character_spec.
    + exists before, after. split; [assumption|]. split.
      * intros b c H. apply not_word_character_spec. now apply (Hb b c).
      * intros c a H. apply not_word_character_spec. now apply (Ha c a).
  - intros (Hne & Hw & before & after & E & Hb & Ha).
    split; [assumption|]. split.
    + eapply Forall_impl; [|exact Hw]. intros c. apply word_character_spec.
    + exists before, after. split; [assumption|]. split.
      * intros b c H. apply not_word_character_spec. now apply (Hb b c).
      * intros c a H. apply not_word_character_spec. now apply (Ha c a).
Qed.

(** The words [re.findall] returns are the words of the text. *)
Lemma findall_words_spec s w : In w (findall_words s) <-> word_at s w.
Proof. now rewrite findall_words_runs, word_at_spec. Qed.

(** Counting the symmetric difference of the word sets the code builds is
    counting the words that are in exactly one of the two case-folded
    texts. *)
Lemma differ_in_words_spec n new_text old_text :
  differ_in_words n new_text old_text
  <-> n <= symmetric_difference_card new_text old_text.
Proof.
  unfold differ_in_words, symmetric_difference_card.
  set (nw := findall_words (lower new_text)).
  set (ow := findall_words (lower old_text)).
  assert (Hmem : forall w,
            In w (nodup text_eq_dec
                    (filter (fun w => xorb (set_mem w nw) (set_mem w ow))
                            (nw ++ ow)))
            <-> (In w nw /\ ~ In w ow) \/ (In w ow /\ ~ In w nw)).
  { intros w. rewrite nodup_In, filter_In, in_app_iff.
    destruct (in_dec text_eq_dec w nw) as [i1|n1];
      [rewrite (proj2 (set_mem_In _ _) i1)
      |rewrite (proj2 (set_mem_not_In _ _) n1)];
      (destruct (in_dec text_eq_dec w ow) as [i2|n2];
       [rewrite (proj2 (set_mem_In _ _) i2)
       |rewrite (proj2 (set_mem_not_In _ _) n2)]);
      cbn [xorb]; intuition congruence. }
  split.
  - intros (fn & fo & l & Hfn & Hfo & ND & Hlen & Hl).
    apply case_folded_spec in Hfn, Hfo. subst fn fo.
    etransitivity; [exact Hlen|].
    apply NoDup_incl_length; [assumption|]. intros w Hw. apply Hmem.
    unfold nw, ow. rewrite !findall_words_spec. now apply Hl.
  - intros Hlen. exists (lower new_text), (lower old_text). eexists.
    split; [now apply case_folded_spec|].
    split; [now apply case_folded_spec|].
    split; [apply NoDup_nodup|].
    split; [exact Hlen|]. intros w Hw. apply Hmem in Hw.
    unfold nw, ow in Hw. now rewrite !findall_words_spec in Hw.
Qed.

(** ** The classification loops *)

Section MatcherProperties.

Variable set_iter : list text -> list text.
Hypothesis set_iter_perm : forall l, Permutation (set_iter l) l.

Lemma set_iter_In l k : In k (set_iter l) <-> In k l.
Proof.
  split; apply Permutation_in;
    [apply set_iter_perm|apply Permutation_sym, set_iter_perm].
Qed.

Lemma old_texts_long old_items o :
  In o (old_texts_of set_iter old_items) -> 30 <= length o.
Proof.
  unfold old_texts_of. rewrite set_iter_In, normalized_map_keys. tauto.
Qed.

Lemma old_texts_pos old_items o :
  In o (old_texts_of set_iter old_items) -> 0 < length o.
Proof. intros H. apply old_texts_long in H. lia. Qed.

Lemma modified_for_spec old_items new_items new_norm :
  In new_norm (dict_keys (normalized_map new_items)) ->
  exists prs,
    modified_for (normalized_map old_items) (normalized_map new_items)
      (old_texts_of set_iter old_items) new_norm = inr prs
    /\ forall ob nb,
         In (ob, nb) prs
         <-> key_of nb = new_norm /\ In nb new_items /\ In ob old_items
             /\ accepted_match (old_texts_of set_iter old_items) new_norm (key_of ob)
             /\ significant_pair (snd nb) (snd ob) = true.
Proof.
  intros Hnew. unfold modified_for.
  destruct (set_mem new_norm (old_texts_of set_iter old_items)) eqn:Hmem.
  { exists []. split; [reflexivity|]. intros ob nb. split; [intros []|].
    intros (_ & _ & _ & (Hn & _) & _). apply set_mem_In in Hmem. contradiction. }
  apply set_mem_not_In in Hmem.
  destruct (best_match_spec new_norm (old_texts_of set_iter old_items) None 0%Q
              (old_texts_pos old_items))
    as (best & s & Hbm & _ & _ & Hsel).
  rewrite Hbm. cbn [bind].
  assert (Hnone : forall prs : list (block * block), prs = [] ->
            (forall k, best = Some k -> k <> [] ->
               (3 # 4 < s)%Q -> (s < 9 # 10)%Q -> False) ->
            forall ob nb,
              In (ob, nb) prs
              <-> key_of nb = new_norm /\ In nb new_items /\ In ob old_items
                  /\ accepted_match (old_texts_of set_iter old_items) new_norm
                       (key_of ob)
                  /\ significant_pair (snd nb) (snd ob) = true).
  { intros prs -> Hno ob nb. split; [intros []|].
    intros (_ & _ & _ & (_ & s' & Hbm' & Hne & Hlo & Hhi) & _).
    rewrite Hbm in Hbm'. inversion Hbm'; subst.
    now apply (Hno (key_of ob) eq_refl). }
  destruct best as [[|c best]|].
  - exists []. split; [reflexivity|]. apply Hnone; [reflexivity|].
    intros k Hk Hne. inversion Hk; subst. congruence.
  - destruct (Qltb (3 # 4) s && Qltb s (9 # 10)) eqn:Hint.
    + apply andb_true_iff in Hint. destruct Hint as [Hlo Hhi].
      apply Qltb_lt in Hlo. apply Qltb_lt in Hhi.
      assert (Hbest : In (c :: best) (dict_keys (normalized_map old_items))).
      { destruct Hsel as [[Hb _]|(o & Hin & Hb & _)]; [discriminate|].
        inversion Hb; subst o. now apply set_iter_In. }
      rewrite (normalized_map_get new_items new_norm Hnew). cbn [bind].
      rewrite (for_each_pure _ _
                 (fun nb => verified_pairs nb
                              (filter (has_key (c :: best)) old_items))).
      2:{ intros nb _. now rewrite (normalized_map_get old_items _ Hbest). }
      eexists. split; [reflexivity|]. intros ob nb.
      rewrite in_flat_map. split.
      * intros (nb' & Hnb' & Hin). apply verified_pairs_In in Hin.
        destruct Hin as (-> & Hob & Hsig).
        apply filter_In in Hnb'. destruct Hnb' as [Hnb' Hk'].
        apply filter_In in Hob. destruct Hob as [Hob Hk].
        apply has_key_true in Hk, Hk'.
        repeat split; try assumption.
        exists s. rewrite Hk. repeat split; try assumption. discriminate.
      * intros (Hk' & Hnb & Hob & (_ & s' & Hbm' & _) & Hsig).
        rewrite Hbm in Hbm'. inversion Hbm' as [[Hk Hs]].
        exists nb. split.
        -- apply filter_In. split; [assumption|now apply has_key_true].
        -- apply verified_pairs_In. split; [reflexivity|].
           split; [|assumption]. apply filter_In. split; [assumption|].
           apply has_key_true. congruence.
    + exists []. split; [reflexivity|]. apply Hnone; [reflexivity|].
      intros k _ _ Hlo Hhi. apply Qltb_lt in Hlo, Hhi.
      rewrite Hlo, Hhi in Hint. discriminate.
  - exists []. split; [reflexivity|]. apply Hnone; [reflexivity|].
    intros k Hk. discriminate.
Qed.

(** The sources of the three categories. *)
Lemma classify_spec old_items new_items :
  exists mp,
    classify set_iter old_items new_items
    = inr {| added_items :=
               unmatched_items (normalized_map new_items)
                 (normalized_map old_items);
             removed_items :=
               unmatched_items (normalized_map old_items)
                 (normalized_map new_items);
             modified_pairs := mp |}
    /\ forall ob nb,
         In (ob, nb) mp
         <-> In ob old_items /\ In nb new_items
             /\ 30 <= length (key_of nb)
             /\ accepted_match (old_texts_of set_iter old_items) (key_of nb)
                  (key_of ob)
             /\ significant_pair (snd nb) (snd ob) = true.
Proof.
  unfold classify. fold (old_texts_of set_iter old_items).
  destruct (for_each_total
              (set_iter (dict_keys (normalized_map new_items)))
              (modified_for (normalized_map old_items)
                 (normalized_map new_items) (old_texts_of set_iter old_items)))
    as [mp Hmp].
  { intros k Hk. apply (proj1 (set_iter_In _ _)) in Hk.
    destruct (modified_for_spec old_items new_items k Hk) as (prs & H & _).
    now exists prs. }
  exists mp. rewrite Hmp. split; [reflexivity|]. intros ob nb.
  rewrite (for_each_In _ _ _ Hmp). split.
  - intros (k & prs & Hk & Hbody & Hin). apply (proj1 (set_iter_In _ _)) in Hk.
    destruct (modified_for_spec old_items new_items k Hk) as (prs' & H & Hiff).
    rewrite Hbody in H. inversion H; subst prs'.
    apply Hiff in Hin. destruct Hin as (<- & Hnb & Hob & Hacc & Hsig).
    split; [assumption|]. split; [assumption|].
    split; [now apply normalized_map_keys in Hk|]. now split.
  - intros (Hob & Hnb & Hlen & Hacc & Hsig).
    assert (Hk : In (key_of nb) (dict_keys (normalized_map new_items))).
    { apply normalized_map_keys. split; [assumption|]. now exists nb. }
    destruct (modified_for_spec old_items new_items _ Hk) as (prs & H & Hiff).
    exists (key_of nb), prs. split; [now apply set_iter_In|].
    split; [assumption|]. apply Hiff. tauto.
Qed.


Lemma classify_returns old_items new_items :
  exists s, classify set_iter old_items new_items = inr s.
Proof.
  destruct (classify_spec old_items new_items) as (mp & H & _).
  eexists. exact H.
Qed.

Lemma find_significant_changes_render old_items new_items thr s :
  classify set_iter old_items new_items = inr s ->
  find_significant_changes set_iter old_items new_items thr
  = inr (render s).
Proof. intros H. unfold find_significant_changes. now rewrite H. Qed.

Lemma accepted_is_best old_items new_norm old_norm :
  accepted_match (old_texts_of set_iter old_items) new_norm old_norm ->
  best_fuzzy_match old_items new_norm old_norm.
Proof.
  intros Hacc.
  destruct (accepted_match_spec _ _ _ (old_texts_pos old_items) Hacc)
    as (Hin & Hsurv & Hlo & Hhi & Hmax).
  destruct Hacc as (Hnotin & _).
  unfold old_texts_of in *. rewrite set_iter_In in Hin, Hnotin.
  split; [assumption|]. split; [assumption|].
  split; [now apply survives_prefilter_spec|].
  split; [assumption|]. split; [assumption|].
  intros o Ho Hsv. apply Hmax; [now apply set_iter_In|].
  now apply survives_prefilter_spec.
Qed.

(** C1, as the code has it. Whatever the two block lists, the matcher
    returns; its report holds one [modified] entry for each pair of blocks
    the third loop lets through; and such an entry pairs a new block with
    an old block only when the key of the new block is not a key of the old
    map and the key of the old block is a best fuzzy match for it: a key of
    the old map that passes the pre-filter [min(len)/max(len) >= 0.75],
    whose similarity is strictly between 0.75 and 0.9 and is the largest
    among the keys that pass the pre-filter.  The similarity is the one of
    the code, [SequenceMatcher(None, new_norm, old_norm).ratio()] with its
    matching blocks and its treatment of frequent characters, not the
    ratio of the longest common subsequence.  A new key without such an
    old key gets no [modified] entry. *)
Theorem modified_only_for_best_fuzzy_match old_items new_items thr :
  exists s r,
    classify set_iter old_items new_items = inr s
    /\ find_significant_changes set_iter old_items new_items thr = inr r
    /\ modified r = map entry_of (modified_pairs s)
    /\ (forall ob nb, In (ob, nb) (modified_pairs s) ->
          best_fuzzy_match old_items (key_of nb) (key_of ob))
    /\ (forall new_norm,
          (forall old_norm, ~ best_fuzzy_match old_items new_norm old_norm) ->
          forall ob nb, In (ob, nb) (modified_pairs s) ->
            key_of nb <> new_norm).
Proof.
  destruct (classify_spec old_items new_items) as (mp & Hc & Hiff).
  eexists. eexists. split; [exact Hc|].
  split; [exact (find_significant_changes_render old_items new_items thr
                   _ Hc)|].
  split; [reflexivity|].
  cbn [modified_pairs].
  assert (H1 : forall ob nb, In (ob, nb) mp ->
                 best_fuzzy_match old_items (key_of nb) (key_of ob)).
  { intros ob nb Hin. apply Hiff in Hin.
    destruct Hin as (_ & _ & _ & Hacc & _). now apply accepted_is_best. }
  split; [exact H1|].
  intros new_norm Hno ob nb Hin Heq. apply (Hno (key_of ob)).
  rewrite <- Heq. now apply H1.
Qed.

(** C2. The report holds one [modified] entry for each pair of blocks the
    third loop lets through, in its order; and for an old block and a new
    block whose keys the best-match search pairs and accepts, the pair is
    let through exactly when, on the original texts, at least 5 words are
    in exactly one of the two lower-cased word sets and the two lengths
    differ by more than 50 characters. *)
Theorem modified_iff_secondary_verification old_items new_items thr :
  exists s r,
    classify set_iter old_items new_items = inr s
    /\ find_significant_changes set_iter old_items new_items thr = inr r
    /\ modified r = map entry_of (modified_pairs s)
    /\ forall ob nb,
         In ob old_items -> In nb new_items ->
         30 <= length (key_of nb) ->
         accepted_match (old_texts_of set_iter old_items) (key_of nb)
           (key_of ob) ->
         (In (ob, nb) (modified_pairs s)
          <-> differ_in_words 5 (snd nb) (snd ob)
              /\ (50 < Z.abs (Z.of_nat (length (snd nb))
                              - Z.of_nat (length (snd ob))))%Z).
Proof.
  destruct (classify_spec old_items new_items) as (mp & Hc & Hiff).
  eexists. eexists. split; [exact Hc|].
  split; [exact (find_significant_changes_render old_items new_items thr
                   _ Hc)|].
  split; [reflexivity|].
  cbn [modified_pairs]. intros ob nb Hob Hnb Hlen Hacc.
  rewrite Hiff, significant_pair_spec, differ_in_words_spec.
  unfold length_diff. tauto.
Qed.

Lemma dict_mem_normalized_map items k :
  dict_mem k (normalized_map items) = true
  <-> 30 <= length k /\ key_in k items.
Proof.
  unfold dict_mem. rewrite set_mem_In. apply normalized_map_keys.
Qed.

Lemma excerpt_truncated b : well_truncated b (excerpt b).
Proof.
  destruct b as [tag txt]. unfold well_truncated, excerpt. cbn [fst snd].
  unfold label, ellipsis. split; intros H.
  - replace (150 <? length txt) with true
      by (symmetry; now apply Nat.ltb_lt).
    rewrite <- !app_assoc. split; [reflexivity|].
    rewrite !length_app, length_firstn.
    change (length (lit "<strong>")) with 8.
    change (length (lit "</strong>: ")) with 11.
    change (length (lit "...")) with 3. lia.
  - replace (150 <? length txt) with false
      by (symmetry; now apply Nat.ltb_ge).
    rewrite <- !app_assoc. reflexivity.
Qed.

Lemma unmatched_items_segment items other k :
  key_in k items -> dict_mem k other = false -> 50 < length k ->
  exists before after,
    unmatched_items (normalized_map items) other
    = before ++ filter (has_key k) items ++ after.
Proof.
  intros Hin Hout Hlen.
  assert (Hk : In k (dict_keys (normalized_map items)))
    by (apply normalized_map_keys; split; [lia|assumption]).
  destruct (normalized_map_ok items) as (_ & Hent & _).
  apply in_map_iff in Hk. destruct Hk as ([k' bs] & Hk' & Hentry).
  cbn [fst] in Hk'. subst k'.
  destruct (Hent _ _ Hentry) as (Hbs & _). subst bs.
  apply in_split in Hentry. destruct Hentry as (m1 & m2 & Hm).
  rewrite Hm. unfold unmatched_items. rewrite flat_map_app.
  cbn [flat_map]. rewrite Hout. cbn [negb].
  replace (50 <? length k) with true by (symmetry; now apply Nat.ltb_lt).
  eexists. eexists. reflexivity.
Qed.

(** C3. The [added] list of the report is made of the excerpts of the blocks
    the first loop emits, and [removed] of those of the second loop.  A key
    of length above 50 that some new block has and no old block has puts all
    the new blocks with that key into [added], in their order and as many
    times as they occur: they are the emitted blocks of that key, and their
    excerpts stand side by side in [added].  Likewise for [removed] with the
    two sides exchanged.  No block whose key has length at most 50 is put
    into [added] or [removed]. *)
Theorem unmatched_keys_emit_all_their_blocks old_items new_items thr :
  exists s r,
    classify set_iter old_items new_items = inr s
    /\ find_significant_changes set_iter old_items new_items thr = inr r
    /\ added r = map excerpt (added_items s)
    /\ removed r = map excerpt (removed_items s)
    /\ (forall k, key_in k new_items -> ~ key_in k old_items ->
          50 < length k ->
          filter (has_key k) (added_items s)
          = filter (has_key k) new_items
          /\ exists before after,
               added r
               = before ++ map excerpt (filter (has_key k) new_items)
                   ++ after)
    /\ (forall k, key_in k old_items -> ~ key_in k new_items ->
          50 < length k ->
          filter (has_key k) (removed_items s)
          = filter (has_key k) old_items
          /\ exists before after,
               removed r
               = before ++ map excerpt (filter (has_key k) old_items)
                   ++ after)
    /\ (forall k, length k <= 50 ->
          filter (has_key k) (added_items s) = []
          /\ filter (has_key k) (removed_items s) = []).
Proof.
  destruct (classify_spec old_items new_items) as (mp & Hc & _).
  eexists. eexists. split; [exact Hc|].
  split; [exact (find_significant_changes_render old_items new_items thr
                   _ Hc)|].
  split; [reflexivity|]. split; [reflexivity|].
  cbn [render added removed added_items removed_items].
  assert (Hall : forall this other k,
            key_in k this -> ~ key_in k other -> 50 < length k ->
            filter (has_key k)
              (unmatched_items (normalized_map this) (normalized_map other))
            = filter (has_key k) this
            /\ exists before after,
                 map excerpt
                   (unmatched_items (normalized_map this)
                      (normalized_map other))
                 = before ++ map excerpt (filter (has_key k) this) ++ after).
  { intros this other k Hin Hout Hlen.
    assert (Hmem : dict_mem k (normalized_map other) = false).
    { destruct (dict_mem k (normalized_map other)) eqn:E; [|reflexivity].
      apply dict_mem_normalized_map in E. tauto. }
    split.
    - rewrite unmatched_items_filter.
      replace (set_mem k (dict_keys (normalized_map this))) with true.
      2:{ symmetry. apply set_mem_In, normalized_map_keys.
          split; [lia|assumption]. }
      rewrite Hmem.
      replace (50 <? length k) with true
        by (symmetry; now apply Nat.ltb_lt).
      reflexivity.
    - destruct (unmatched_items_segment this (normalized_map other) k
                  Hin Hmem Hlen) as (before & after & ->).
      exists (map excerpt before), (map excerpt after).
      now rewrite !map_app. }
  split; [now apply Hall|]. split; [now apply Hall|].
  intros k Hlen. rewrite !unmatched_items_filter.
  replace (50 <? length k) with false by (symmetry; now apply Nat.ltb_ge).
  rewrite !andb_false_r. now split.
Qed.

(** C4. A block whose normalized key is shorter than 30 characters is
    the source of no excerpt: it is not among the blocks [added] is built
    from, nor [removed], and it is neither side of a [modified] entry. *)
Theorem short_keys_are_never_reported old_items new_items thr :
  exists s,
    classify set_iter old_items new_items = inr s
    /\ find_significant_changes set_iter old_items new_items thr
       = inr (render s)
    /\ forall b, length (key_of b) < 30 -> ~ is_source s b.
Proof.
  destruct (classify_spec old_items new_items) as (mp & Hc & Hiff).
  eexists. split; [exact Hc|].
  split; [now apply find_significant_changes_render|].
  intros b Hshort [H|[H|([ob nb] & Hin & Hb)]]; cbn [added_items removed_items
    modified_pairs fst snd] in *.
  - apply unmatched_items_In in H. lia.
  - apply unmatched_items_In in H. lia.
  - apply Hiff in Hin. destruct Hin as (_ & _ & Hlen & Hacc & _).
    destruct Hb as [->| ->]; [|lia].
    destruct (accepted_match_spec _ _ _ (old_texts_pos old_items) Hacc)
      as (Hold & _).
    apply old_texts_long in Hold. lia.
Qed.

Lemma unmatched_items_all_matched m other :
  (forall entry, In entry m -> dict_mem (fst entry) other = true) ->
  unmatched_items m other = [].
Proof.
  unfold unmatched_items. induction m as [|[k bs] m IH]; intros H.
  - reflexivity.
  - cbn [flat_map]. pose proof (H (k, bs) (or_introl eq_refl)) as Hk.
    cbn [fst] in Hk. rewrite Hk. cbn [negb app].
    apply IH. intros; apply H; now right.
Qed.

Lemma unmatched_items_self m : unmatched_items m m = [].
Proof.
  apply unmatched_items_all_matched. intros entry Hin.
  apply set_mem_In. now apply in_map.
Qed.

(** C6. Matching a block list against itself reports nothing. *)
Theorem match_with_itself_is_empty X thr :
  find_significant_changes set_iter X X thr
  = inr {| added := []; removed := []; modified := [] |}.
Proof.
  unfold find_significant_changes, classify.
  rewrite unmatched_items_self.
  rewrite for_each_nil_bodies; [reflexivity|].
  intros new_norm Hin. unfold modified_for.
  replace (set_mem new_norm (set_iter (dict_keys (normalized_map X))))
    with true; [reflexivity|].
  symmetry. now apply set_mem_In.
Qed.

(** C7. The matcher returns, and every excerpt of its report shows a block
    of one of the two inputs: when the text of the block is longer than
    150 characters the excerpt is the tag in bold, the first 150 characters
    of the text and the three dots [...], and nothing else; when it is at
    most 150 characters long the excerpt is the tag in bold and the whole
    text, without the dots. *)
Theorem excerpts_are_cut_at_150 old_items new_items thr :
  exists r,
    find_significant_changes set_iter old_items new_items thr = inr r
    /\ forall e, excerpt_of_report r e ->
         exists b, (In b old_items \/ In b new_items)
                   /\ e = excerpt b /\ well_truncated b e.
Proof.
  destruct (classify_spec old_items new_items) as (mp & Hc & Hiff).
  eexists.
  split; [exact (find_significant_changes_render old_items new_items thr _ Hc)|].
  assert (Hex : forall b e, e = excerpt b -> In b old_items \/ In b new_items ->
                  exists b, (In b old_items \/ In b new_items)
                            /\ e = excerpt b /\ well_truncated b e).
  { intros b e -> Hb. exists b. split; [assumption|].
    split; [reflexivity|apply excerpt_truncated]. }
  intros e [H|[H|(c & Hin & Hc')]]; cbn [render added removed modified
    added_items removed_items modified_pairs] in *.
  - apply in_map_iff in H. destruct H as (b & <- & Hb).
    apply unmatched_items_In in Hb. apply (Hex b); tauto.
  - apply in_map_iff in H. destruct H as (b & <- & Hb).
    apply unmatched_items_In in Hb. apply (Hex b); tauto.
  - apply in_map_iff in Hin. destruct Hin as ([ob nb] & <- & Hin).
    apply Hiff in Hin. cbn [old new fst snd] in Hc'.
    destruct Hc' as [->| ->]; [apply (Hex ob)|apply (Hex nb)]; tauto.
Qed.

(** C9. The report does not depend on [similarity_threshold]. *)
Theorem similarity_threshold_is_ignored old_items new_items t1 t2 :
  find_significant_changes set_iter old_items new_items t1
  = find_significant_changes set_iter old_items new_items t2.
Proof. reflexivity. Qed.

(** C10. Every key of either lookup map has at least 30 characters, so for
    every pair of keys the search compares the larger length is positive
    and the length ratio is defined; the matcher returns without raising. *)
Theorem length_ratio_is_always_defined old_items new_items :
  (forall k,
     In k (dict_keys (normalized_map old_items))
     \/ In k (dict_keys (normalized_map new_items)) ->
     30 <= length k)
  /\ (forall new_norm old_norm,
        In new_norm (set_iter (dict_keys (normalized_map new_items))) ->
        In old_norm (old_texts_of set_iter old_items) ->
        0 < Nat.max (length new_norm) (length old_norm)
        /\ exists r, length_ratio new_norm old_norm = inr r)
  /\ exists s, classify set_iter old_items new_items = inr s.
Proof.
  split; [|split].
  - intros k [H|H]; apply normalized_map_keys in H; tauto.
  - intros new_norm old_norm Hn Ho. apply old_texts_long in Ho.
    assert (Hpos : 0 < Nat.max (length new_norm) (length old_norm)) by lia.
    split; [assumption|now apply length_ratio_defined].
  - apply classify_returns.
Qed.

End MatcherProperties.

(** The division does raise on two empty keys: only the 30-character
    filter of the maps keeps it defined. *)
Lemma length_ratio_of_empty_keys : length_ratio [] [] = inl ZeroDivisionError.
Proof. reflexivity. Qed.

(** ** Scenario 3 *)

Lemma insertion_order_perm l : Permutation (insertion_order l) l.
Proof. apply Permutation_refl. Qed.

(** The matcher reads [set_iter] at the two key lists only. *)
Lemma classify_insertion_order set_iter old_items new_items :
  set_iter (dict_keys (normalized_map old_items))
  = dict_keys (normalized_map old_items) ->
  set_iter (dict_keys (normalized_map new_items))
  = dict_keys (normalized_map new_items) ->
  classify set_iter old_items new_items
  = classify insertion_order old_items new_items.
Proof.
  intros Ho Hn. unfold classify, insertion_order. now rewrite Ho, Hn.
Qed.

Lemma set_iter_at_most_one (set_iter : list text -> list text) l :
  (forall l', Permutation (set_iter l') l') ->
  length l <= 1 -> set_iter l = l.
Proof.
  intros Hperm Hlen. specialize (Hperm l).
  destruct l as [|k [|k' l]]; [| |simpl in Hlen; lia].
  - exact (Permutation_nil (Permutation_sym Hperm)).
  - exact (Permutation_length_1_inv (Permutation_sym Hperm)).
Qed.


Lemma scenario3_run thr :
  find_significant_changes insertion_order scenario3_old scenario3_new thr
  = inr (render {| added_items := scenario3_new;
                   removed_items := scenario3_old;
                   modified_pairs := [] |}).
Proof. vm_compute. reflexivity. Qed.

(** C5, as the code has it. On scenario 3 the matcher returns the report
    written out below: no [modified] entry, the new paragraph in [added]
    and the old one in [removed].  The two keys are a fuzzy match
    (similarity 110/125 = 0.88) and 6 words are in exactly one of the two
    word sets, but the texts have 83 and 70 characters: they differ by 13
    characters only. *)
Theorem scenario3_report set_iter thr :
  (forall l, Permutation (set_iter l) l) ->
  find_significant_changes set_iter scenario3_old scenario3_new thr
  = inr {| added :=
             [lit "<strong>P</strong>: The quick brown fox jumps over the lazy dog near the riverbank yesterday afternoon."];
           removed :=
             [lit "<strong>P</strong>: The quick brown fox jumps over the lazy dog near the river bank today."];
           modified := [] |}
  /\ SequenceMatcher.ratio (key_of scenario3_new_block)
       (key_of scenario3_old_block) = 110 # 125
  /\ differ_in_words 6 (snd scenario3_new_block) (snd scenario3_old_block)
  /\ ~ differ_in_words 7 (snd scenario3_new_block) (snd scenario3_old_block)
  /\ length (snd scenario3_new_block) = 83
  /\ length (snd scenario3_old_block) = 70.
Proof.
  intros Hperm. split.
  - transitivity (find_significant_changes insertion_order scenario3_old
                    scenario3_new thr).
    + unfold find_significant_changes. rewrite classify_insertion_order.
      * reflexivity.
      * apply set_iter_at_most_one; [assumption|]. vm_compute. lia.
      * apply set_iter_at_most_one; [assumption|]. vm_compute. lia.
    + vm_compute. reflexivity.
  - split; [vm_compute; reflexivity|].
    rewrite !differ_in_words_spec.
    replace (symmetric_difference_card (snd scenario3_new_block)
               (snd scenario3_old_block)) with 6
      by (vm_compute; reflexivity).
    repeat split; [lia|lia].
Qed.

Lemma scenario3_report_witness :
  exists r,
    find_significant_changes insertion_order scenario3_old scenario3_new
      (7 # 10) = inr r
    /\ length (added r) = 1 /\ length (removed r) = 1
    /\ length (modified r) = 0.
Proof.
  eexists. split.
  - exact (proj1 (scenario3_report insertion_order (7 # 10)
                    insertion_order_perm)).
  - repeat split.
Defined.

(** Scenario 3 does not give one [modified] entry and nothing else. *)
Lemma scenario3_is_not_one_modified :
  ~ exists r,
      find_significant_changes insertion_order scenario3_old scenario3_new
        (7 # 10) = inr r
      /\ length (modified r) = 1
      /\ length (added r) = 0
      /\ length (removed r) = 0.
Proof.
  intros (r & Hr & Hm & _).
  rewrite scenario3_run in Hr. inversion Hr; subst r.
  discriminate Hm.
Qed.

(** ** The extractor *)

Lemma extract_meaningful_text_In (soup : Type) (parse : text -> soup)
    (find_all_text : soup -> tag_name -> list text) html b :
  In b (extract_meaningful_text parse find_all_text (Some html)) ->
  In (fst b) significant_tags
  /\ (exists raw, In raw (find_all_text (parse html) (fst b))
                  /\ snd b = strip raw)
  /\ 10 < length (snd b)
  /\ only_digits_and_nonword (snd b) = false.
Proof.
  unfold extract_meaningful_text. rewrite in_flat_map.
  intros (tag & Htag & Hin). apply in_flat_map in Hin.
  destruct Hin as (raw & Hraw & Hin).
  destruct ((10 <? length (strip raw))
            && negb (only_digits_and_nonword (strip raw))) eqn:E;
    [|contradiction].
  destruct Hin as [<-|[]]. cbn [fst snd].
  apply andb_true_iff in E. destruct E as [E1 E2].
  apply Nat.ltb_lt in E1. apply negb_true_iff in E2.
  split; [assumption|]. split; [now exists raw|]. now split.
Qed.

Lemma forallb_false_exists {A : Type} (f : A -> bool) (l : list A) :
  forallb f l = false -> exists x, In x l /\ f x = false.
Proof.
  induction l as [|x l IH]; simpl; intros H; [discriminate|].
  apply andb_false_iff in H. destruct H as [H|H].
  - exists x. split; [now left|assumption].
  - destruct (IH H) as (y & Hy & Hf). exists y. split; [now right|assumption].
Qed.

(** A kept text has a word character that is not a decimal digit. *)
Lemma kept_text_has_word_char txt :
  10 < length txt -> only_digits_and_nonword txt = false ->
  exists c, In c txt /\ is_word c = true /\ is_decimal c = false.
Proof.
  intros Hlen H. unfold only_digits_and_nonword in H.
  destruct txt as [|c0 txt0] eqn:E; [simpl in Hlen; lia|].
  rewrite <- E in *. clear E Hlen.
  destruct (forallb_false_exists _ _ H) as (c & Hc & Hf).
  exists c. split; [assumption|]. apply orb_false_iff in Hf.
  destruct Hf as [Hd Hw]. apply negb_false_iff in Hw. now split.
Qed.

(** Scenario 4: digits and punctuation are never extracted. *)
Lemma digits_and_punctuation_never_extracted (soup : Type)
    (parse : text -> soup) (find_all_text : soup -> tag_name -> list text)
    html_content tag :
  ~ In (tag, lit "12345 !!! ---")
       (extract_meaningful_text parse find_all_text html_content).
Proof.
  destruct html_content as [html|]; [|intros []].
  intros H. apply extract_meaningful_text_In in H.
  destruct H as (_ & _ & _ & H). vm_compute in H. discriminate.
Qed.

(** C8, where the code departs from it. The only paragraph of the page is
    a line of underscores and a year: no letter in it, yet the extractor
    returns it, the underscore being a word character that is not a
    digit. *)
Theorem underscore_line_is_extracted :
  extract_meaningful_text (fun _ : text => signature_page)
    (fun (s : page) t => s t) (Some signature_html)
  = [(tag_p, lit "__________ 2024")]
  /\ existsb is_alpha (lit "__________ 2024") = false
  /\ only_digits_and_nonword (lit "__________ 2024") = false.
Proof. vm_compute. repeat split. Qed.

(** ** The properties at sample inputs *)

Lemma ruled_run :
  classify insertion_order scenario3_old ruled_new
  = inr {| added_items := ruled_new;
           removed_items := scenario3_old;
           modified_pairs := [(scenario3_old_block, ruled_new_block)] |}.
Proof. vm_compute. reflexivity. Qed.

Lemma ruled_accepted :
  accepted_match (old_texts_of insertion_order scenario3_old)
    (key_of ruled_new_block) (key_of scenario3_old_block).
Proof.
  split.
  - apply set_mem_not_In. vm_compute. reflexivity.
  - exists (110 # 125). split; [vm_compute; reflexivity|].
    split; [discriminate|]. split; reflexivity.
Qed.

Lemma modified_only_for_best_fuzzy_match_witness :
  exists s r,
    classify insertion_order scenario3_old ruled_new = inr s
    /\ find_significant_changes insertion_order scenario3_old ruled_new
         (7 # 10) = inr r
    /\ In (scenario3_old_block, ruled_new_block) (modified_pairs s)
    /\ In (entry_of (scenario3_old_block, ruled_new_block)) (modified r)
    /\ best_fuzzy_match scenario3_old (key_of ruled_new_block)
         (key_of scenario3_old_block).
Proof.
  destruct (modified_only_for_best_fuzzy_match insertion_order
              insertion_order_perm scenario3_old ruled_new (7 # 10))
    as (s & r & Hc & Hr & Hm & H1 & _).
  exists s, r. split; [exact Hc|]. split; [exact Hr|].
  assert (Hin : In (scenario3_old_block, ruled_new_block) (modified_pairs s)).
  { rewrite ruled_run in Hc. inversion Hc; subst s. now left. }
  split; [exact Hin|].
  split; [rewrite Hm; now apply (in_map entry_of)|]. now apply H1.
Defined.

Lemma modified_iff_secondary_verification_witness :
  exists s r,
    classify insertion_order scenario3_old ruled_new = inr s
    /\ find_significant_changes insertion_order scenario3_old ruled_new
         (7 # 10) = inr r
    /\ In (scenario3_old_block, ruled_new_block) (modified_pairs s)
    /\ In (entry_of (scenario3_old_block, ruled_new_block)) (modified r)
    /\ differ_in_words 5 (snd ruled_new_block) (snd scenario3_old_block)
    /\ (50 < Z.abs (Z.of_nat (length (snd ruled_new_block))
                    - Z.of_nat (length (snd scenario3_old_block))))%Z.
Proof.
  destruct (modified_iff_secondary_verification insertion_order
              insertion_order_perm scenario3_old ruled_new (7 # 10))
    as (s & r & Hc & Hr & Hm & H).
  exists s, r. split; [exact Hc|]. split; [exact Hr|].
  assert (Hin : In (scenario3_old_block, ruled_new_block) (modified_pairs s)).
  { rewrite ruled_run in Hc. inversion Hc; subst s. now left. }
  split; [exact Hin|].
  split; [rewrite Hm; now apply (in_map entry_of)|].
  apply (H scenario3_old_block ruled_new_block).
  - now left.
  - now left.
  - apply Nat.leb_le. vm_compute. reflexivity.
  - exact ruled_accepted.
  - exact Hin.
Defined.

Lemma unmatched_keys_emit_all_their_blocks_witness :
  exists s r,
    classify insertion_order [] twice_new = inr s
    /\ find_significant_changes insertion_order [] twice_new (7 # 10)
       = inr r
    /\ filter (has_key (normalize_text scenario2_text)) (added_items s)
       = twice_new
    /\ exists before after,
         added r
         = before
           ++ [lit "<strong>P</strong>: A brand new substantial paragraph of significant length exceeding fifty normalized characters for sure.";
               lit "<strong>H2</strong>: A brand new substantial paragraph of significant length exceeding fifty normalized characters for sure."]
           ++ after.
Proof.
  destruct (unmatched_keys_emit_all_their_blocks insertion_order
              insertion_order_perm [] twice_new (7 # 10))
    as (s & r & Hc & Hr & _ & _ & H & _).
  exists s, r. split; [exact Hc|]. split; [exact Hr|].
  apply (H (normalize_text scenario2_text)).
  - exists (tag_p, scenario2_text). split; [now left|reflexivity].
  - intros (b & [] & _).
  - apply Nat.ltb_lt. vm_compute. reflexivity.
Defined.

Lemma short_keys_are_never_reported_witness :
  exists s,
    classify insertion_order [short_block] scenario3_new = inr s
    /\ ~ is_source s short_block.
Proof.
  destruct (short_keys_are_never_reported insertion_order
              insertion_order_perm [short_block] scenario3_new (7 # 10))
    as (s & Hc & _ & H).
  exists s. split; [exact Hc|]. apply H.
  apply Nat.ltb_lt. vm_compute. reflexivity.
Defined.

Lemma long_run thr :
  find_significant_changes insertion_order [] long_new thr
  = inr (render {| added_items := long_new;
                   removed_items := [];
                   modified_pairs := [] |}).
Proof. vm_compute. reflexivity. Qed.

Lemma excerpts_are_cut_at_150_witness :
  exists r,
    find_significant_changes insertion_order [] long_new (7 # 10) = inr r
    /\ In (excerpt long_block) (added r)
    /\ 150 < length (snd long_block)
    /\ excerpt long_block
       = lit "<strong>P</strong>: A brand new substantial paragraph of significant length exceeding fifty normalized characters for sure. A brand new substantial paragraph of significa..."
    /\ exists b, (In b [] \/ In b long_new)
                 /\ excerpt long_block = excerpt b
                 /\ well_truncated b (excerpt long_block).
Proof.
  destruct (excerpts_are_cut_at_150 insertion_order insertion_order_perm
              [] long_new (7 # 10)) as (r & Hr & H).
  exists r. split; [exact Hr|].
  assert (Hin : In (excerpt long_block) (added r)).
  { rewrite long_run in Hr. inversion Hr; subst r. now left. }
  split; [exact Hin|].
  split; [apply Nat.ltb_lt; vm_compute; reflexivity|].
  split; [vm_compute; reflexivity|].
  apply H. now left.
Defined.

Lemma length_ratio_is_always_defined_witness :
  (exists r, length_ratio (key_of ruled_new_block)
               (key_of scenario3_old_block) = inr r)
  /\ exists s, classify insertion_order scenario3_old ruled_new = inr s.
Proof.
  destruct (length_ratio_is_always_defined insertion_order
              insertion_order_perm scenario3_old ruled_new)
    as (_ & H & Hs).
  split; [|exact Hs].
  apply (H (key_of ruled_new_block) (key_of scenario3_old_block)).
  - apply set_mem_In. vm_compute. reflexivity.
  - apply set_mem_In. vm_compute. reflexivity.
Defined.

(** ** The pairwise variant reads its threshold *)

(** On scenario 3 the raw texts have similarity 136/153: with the default
    threshold 0.7 the pairwise variant reports one [modified] entry, with
    0.9 one [added] and one [removed]. *)
Lemma pairwise_depends_on_threshold :
  Pairwise.find_significant_changes scenario3_old scenario3_new (7 # 10)
  = inr {| added := [];
           removed := [];
           modified := [{| old := excerpt scenario3_old_block;
                           new := excerpt scenario3_new_block |}] |}
  /\ Pairwise.find_significant_changes scenario3_old scenario3_new (9 # 10)
     = inr {| added := [excerpt scenario3_new_block];
              removed := [excerpt scenario3_old_block];
              modified := [] |}.
Proof. split; vm_compute; reflexivity. Qed.

(** * Further properties of the code *)

(** ** [normalize_text] *)

Ltac by_cases_on_ascii c :=
  destruct c as [[|] [|] [|] [|] [|] [|] [|] [|]]; vm_compute;
  try reflexivity; intros; try discriminate; try reflexivity.

Lemma lower_char_idempotent c : lower_char (lower_char c) = lower_char c.
Proof. by_cases_on_ascii c. Qed.

Lemma is_word_lower_char c : is_word (lower_char c) = is_word c.
Proof. by_cases_on_ascii c. Qed.

Lemma is_space_lower_char c : is_space (lower_char c) = is_space c.
Proof. by_cases_on_ascii c. Qed.

Lemma is_word_not_space c : is_word c = true -> is_space c = false.
Proof. by_cases_on_ascii c. Qed.

Lemma normalize_text_filter t :
  normalize_text t = filter is_word (lower t).
Proof.
  assert (H : forall l : text,
            filter (fun c => negb (is_space c))
              (filter (fun c => is_word c || is_space c) l)
            = filter is_word l).
  { induction l as [|c l IH]; [reflexivity|]. simpl.
    destruct (is_word c) eqn:Ew; simpl.
    - rewrite (is_word_not_space c Ew). simpl. now rewrite IH.
    - destruct (is_space c) eqn:Es; simpl; [rewrite Es|]; simpl; exact IH. }
  destruct t as [|c t]; [reflexivity|]. unfold normalize_text. apply H.
Qed.

(** X1. Normalizing a key again leaves it as it is. *)
Theorem normalize_text_idempotent t :
  normalize_text (normalize_text t) = normalize_text t.
Proof.
  rewrite !normalize_text_filter. unfold lower.
  induction t as [|c t IH]; [reflexivity|]. simpl.
  destruct (is_word (lower_char c)) eqn:E; [|exact IH].
  simpl. rewrite lower_char_idempotent, E. now rewrite IH.
Qed.

(** X2. A normalized key is made of word characters only, none of them
    whitespace, each one equal to its lower case, and it is never longer
    than the text. *)
Theorem normalize_text_alphabet t :
  Forall (fun c => is_word c = true /\ is_space c = false
                   /\ lower_char c = c)
         (normalize_text t)
  /\ length (normalize_text t) <= length t.
Proof.
  rewrite normalize_text_filter. unfold lower. split.
  - apply Forall_forall. intros c Hc. apply filter_In in Hc.
    destruct Hc as [Hc Hw]. apply in_map_iff in Hc.
    destruct Hc as (c0 & <- & _).
    split; [assumption|]. split; [now apply is_word_not_space|].
    apply lower_char_idempotent.
  - etransitivity; [apply filter_length_le|]. now rewrite length_map.
Qed.

(** X3. On texts of code points U+0000..U+00FF, where [str.lower] works
    character by character, the key of a concatenation is the
    concatenation of the keys. *)
Theorem normalize_text_app a b :
  normalize_text (a ++ b) = normalize_text a ++ normalize_text b.
Proof.
  rewrite !normalize_text_filter. unfold lower.
  now rewrite map_app, filter_app.
Qed.

(** X4. On texts of code points U+0000..U+00FF the key does not see
    letter case, and it does not see the characters that are not word
    characters: lower-casing the text first, or removing its whitespace
    and punctuation first, gives the same key. *)
Theorem normalize_text_ignores_case_and_separators t :
  normalize_text (lower t) = normalize_text t
  /\ normalize_text (filter is_word t) = normalize_text t.
Proof.
  rewrite !normalize_text_filter. unfold lower. split.
  - rewrite map_map. f_equal. apply map_ext. apply lower_char_idempotent.
  - induction t as [|c t IH]; [reflexivity|]. simpl.
    destruct (is_word c) eqn:E; simpl; rewrite is_word_lower_char, E;
      now rewrite IH.
Qed.

(** ** [extract_meaningful_text] *)

Lemma only_digits_and_nonword_false txt :
  only_digits_and_nonword txt = false
  <-> txt = [] \/ exists c, In c txt /\ is_word c = true /\ is_decimal c = false.
Proof.
  unfold only_digits_and_nonword. destruct txt as [|c0 txt0] eqn:E.
  - split; [now left|reflexivity].
  - rewrite <- E. split.
    + intros H. right. destruct (forallb_false_exists _ _ H) as (c & Hc & Hf).
      exists c. split; [assumption|]. apply orb_false_iff in Hf.
      destruct Hf as [Hd Hw]. apply negb_false_iff in Hw. now split.
    + intros [H|(c & Hc & Hw & Hd)]; [congruence|].
      destruct (forallb _ txt) eqn:F; [|reflexivity].
      rewrite forallb_forall in F. specialize (F c Hc).
      rewrite Hw, Hd in F. discriminate.
Qed.

Lemma kept_spec txt :
  kept txt = true
  <-> 10 < length txt
      /\ exists c, In c txt /\ is_word c = true /\ is_decimal c = false.
Proof.
  unfold kept.
  rewrite andb_true_iff, Nat.ltb_lt, negb_true_iff,
    only_digits_and_nonword_false.
  split.
  - intros [Hlen [->|H]]; [simpl in Hlen; lia|now split].
  - intros [Hlen H]. split; [assumption|now right].
Qed.

(** X5. A block is extracted exactly when its text is the stripped text of
    an element of its kind, is longer than 10 characters and has a word
    character that is not a decimal digit. *)
Theorem extract_meaningful_text_iff (soup : Type) (parse : text -> soup)
    (find_all_text : soup -> tag_name -> list text) html tag txt :
  In (tag, txt) (extract_meaningful_text parse find_all_text (Some html))
  <-> (exists raw, In raw (find_all_text (parse html) tag)
                   /\ txt = strip raw)
      /\ 10 < length txt
      /\ exists c, In c txt /\ is_word c = true /\ is_decimal c = false.
Proof.
  split.
  - intros H. apply extract_meaningful_text_In in H. cbn [fst snd] in H.
    destruct H as (_ & Hraw & Hlen & Hk). split; [assumption|].
    apply kept_spec. unfold kept. rewrite Hk.
    replace (10 <? length txt) with true; [reflexivity|].
    symmetry. now apply Nat.ltb_lt.
  - intros ((raw & Hraw & ->) & Hk). apply kept_spec in Hk.
    unfold extract_meaningful_text. apply in_flat_map. exists tag. split.
    + destruct tag; simpl; tauto.
    + apply in_flat_map. exists raw. split; [assumption|].
      unfold kept in Hk. rewrite Hk. now left.
Qed.

Lemma lstrip_head s c r : lstrip s = c :: r -> is_space c = false.
Proof.
  induction s as [|x s IH]; simpl; [discriminate|].
  destruct (is_space x) eqn:E; [exact IH|].
  intros H. inversion H; subst. exact E.
Qed.

Lemma lstrip_fixed s :
  (forall c r, s = c :: r -> is_space c = false) -> lstrip s = s.
Proof.
  destruct s as [|x s]; [reflexivity|]. intros H. simpl.
  now rewrite (H x s eq_refl).
Qed.

Lemma lstrip_suffix s : exists p, s = p ++ lstrip s.
Proof.
  induction s as [|x s (p & IH)]; [now exists []|]. simpl.
  destruct (is_space x).
  - exists (x :: p). simpl. now rewrite <- IH.
  - now exists [].
Qed.

Lemma strip_trimmed s : trimmed (strip s).
Proof.
  unfold strip. split.
  - intros c r H.
    destruct (lstrip_suffix (rev (lstrip s))) as (p & Hp).
    apply (f_equal (@rev ascii)) in H. rewrite rev_involutive in H.
    simpl in H. rewrite H in Hp.
    apply (f_equal (@rev ascii)) in Hp. rewrite rev_involutive in Hp.
    rewrite !rev_app_distr in Hp. simpl in Hp.
    now apply (lstrip_head s c _ Hp).
  - intros f c H.
    apply (f_equal (@rev ascii)) in H. rewrite rev_involutive in H.
    rewrite rev_app_distr in H. simpl in H.
    now apply (lstrip_head _ c _ H).
Qed.

Lemma strip_of_trimmed s : trimmed s -> strip s = s.
Proof.
  intros [Hh Hl]. unfold strip. rewrite (lstrip_fixed s Hh).
  rewrite lstrip_fixed; [apply rev_involutive|].
  intros c r H. apply (Hl (rev r) c).
  apply (f_equal (@rev ascii)) in H. rewrite rev_involutive in H. exact H.
Qed.

(** X6. An absent content gives no block at all; and no extracted text
    starts or ends with whitespace, so that stripping it again changes
    nothing. *)
Theorem extracted_texts_are_trimmed (soup : Type) (parse : text -> soup)
    (find_all_text : soup -> tag_name -> list text) html_content :
  extract_meaningful_text parse find_all_text None = []
  /\ Forall (fun b => trimmed (snd b) /\ strip (snd b) = snd b)
            (extract_meaningful_text parse find_all_text html_content).
Proof.
  split; [reflexivity|].
  apply Forall_forall. intros b Hb.
  destruct html_content as [html|]; [|contradiction].
  apply extract_meaningful_text_In in Hb.
  destruct Hb as (_ & (raw & _ & ->) & _).
  split; [apply strip_trimmed|apply strip_of_trimmed, strip_trimmed].
Qed.

Lemma flat_map_filter_none {A B : Type} (f : A -> list B) (g : B -> bool)
    (l : list A) :
  (forall x, In x l -> filter g (f x) = []) -> filter g (flat_map f l) = [].
Proof.
  induction l as [|x l IH]; intros H; simpl; [reflexivity|].
  rewrite filter_app, (H x (or_introl eq_refl)), IH; [reflexivity|].
  intros; apply H; now right.
Qed.

Lemma tag_rank_injective t u : tag_rank t = tag_rank u -> t = u.
Proof. destruct t, u; simpl; intros H; try reflexivity; discriminate. Qed.

Lemma strongly_sorted_app {A : Type} (R : A -> A -> Prop) l1 l2 :
  StronglySorted R l1 -> StronglySorted R l2 ->
  (forall x y, In x l1 -> In y l2 -> R x y) ->
  StronglySorted R (l1 ++ l2).
Proof.
  induction l1 as [|x l1 IH]; intros H1 H2 H; simpl; [assumption|].
  inversion H1 as [|? ? H1' Hall]; subst. constructor.
  - apply IH; [assumption|assumption|]. intros; apply H; [now right|assumption].
  - apply Forall_app. split; [assumption|].
    apply Forall_forall. intros y Hy. apply H; [now left|assumption].
Qed.

Lemma strongly_sorted_all_related {A : Type} (R : A -> A -> Prop) l :
  (forall x y, In x l -> In y l -> R x y) -> StronglySorted R l.
Proof.
  induction l as [|x l IH]; intros H; constructor.
  - apply IH. intros; apply H; now right.
  - apply Forall_forall. intros y Hy. apply H; [now left|now right].
Qed.

(** X7. The blocks come out kind by kind, in the order of
    [significant_tags], not in the order of the document: the ranks of
    their tags never decrease along the result, and the blocks of one kind
    are the kept texts of the elements of that kind, in document order and
    with their repetitions. *)
Theorem extracted_blocks_are_grouped_by_kind (soup : Type)
    (parse : text -> soup) (find_all_text : soup -> tag_name -> list text)
    html :
  let out := extract_meaningful_text parse find_all_text (Some html) in
  StronglySorted (fun b1 b2 => tag_rank (fst b1) <= tag_rank (fst b2)) out
  /\ forall t,
       map snd (filter (has_tag t) out)
       = filter kept (map strip (find_all_text (parse html) t)).
Proof.
  set (body := fun t : tag_name =>
         flat_map
           (fun raw => if kept (strip raw)
                       then [((t, strip raw) : block)] else @nil block)
           (find_all_text (parse html) t)).
  assert (Hbody : forall t (b : block), In b (body t) -> fst b = t).
  { intros t b Hb. apply in_flat_map in Hb. destruct Hb as (raw & _ & Hb).
    destruct (kept (strip raw)); [|contradiction].
    destruct Hb as [<-|[]]. reflexivity. }
  assert (Hsame : forall t, @map block text snd (filter (has_tag t) (body t))
                            = filter kept (map strip
                                (find_all_text (parse html) t))).
  { intros t. unfold body.
    induction (find_all_text (parse html) t) as [|raw l IH]; [reflexivity|].
    change (flat_map ?f (raw :: l)) with (f raw ++ flat_map f l).
    cbv beta. rewrite filter_app, map_app. cbn [map filter].
    destruct (kept (strip raw)); [|exact IH].
    cbn [filter]. unfold has_tag at 1. cbn [fst].
    rewrite Nat.eqb_refl. cbn [map snd app]. f_equal. exact IH. }
  assert (Hother : forall t u, u <> t -> filter (has_tag t) (body u) = []).
  { intros t u Hne. apply filter_none. intros b Hb. apply Hbody in Hb.
    unfold has_tag. rewrite Hb. apply Nat.eqb_neq. intros H.
    now apply tag_rank_injective in H. }
  change (extract_meaningful_text parse find_all_text (Some html))
    with (flat_map body significant_tags).
  cbv zeta. split.
  - assert (Hsorted : forall l,
              StronglySorted (fun t u => tag_rank t <= tag_rank u) l ->
              StronglySorted
                (fun b1 b2 => tag_rank (fst b1) <= tag_rank (fst b2))
                (flat_map body l)).
    { induction l as [|t l IH]; intros Hs; [constructor|].
      inversion Hs as [|? ? Hs' Hall]; subst.
      change (flat_map body (t :: l)) with (body t ++ flat_map body l).
      apply strongly_sorted_app; [|now apply IH|].
      - apply strongly_sorted_all_related. intros x y Hx Hy.
        apply Hbody in Hx, Hy. rewrite Hx, Hy. apply Nat.le_refl.
      - intros x y Hx Hy. apply Hbody in Hx. rewrite Hx.
        apply in_flat_map in Hy. destruct Hy as (u & Hu & Hy).
        apply Hbody in Hy. rewrite Hy. rewrite Forall_forall in Hall.
        now apply Hall. }
    apply Hsorted. unfold significant_tags.
    repeat (constructor;
            [|repeat (constructor; [simpl; lia|]); constructor]).
    constructor.
  - intros t.
    assert (Hall : forall l, NoDup l ->
              @map block text snd (filter (has_tag t) (flat_map body l))
              = if existsb (fun u => tag_rank u =? tag_rank t) l
                then filter kept (map strip (find_all_text (parse html) t))
                else []).
    { induction l as [|u l IH]; intros ND; [reflexivity|].
      inversion ND as [|? ? Hnotin ND']; subst. cbn [existsb].
      change (flat_map body (u :: l)) with (body u ++ flat_map body l).
      rewrite filter_app, map_app, (IH ND').
      destruct (tag_rank u =? tag_rank t) eqn:E.
      - apply Nat.eqb_eq, tag_rank_injective in E. subst u. cbn [orb].
        rewrite Hsame.
        replace (existsb (fun u => tag_rank u =? tag_rank t) l) with false;
          [apply app_nil_r|].
        symmetry. destruct (existsb _ l) eqn:Ex; [|reflexivity].
        apply existsb_exists in Ex. destruct Ex as (u & Hu & Eu).
        apply Nat.eqb_eq, tag_rank_injective in Eu. now subst u.
      - cbn [orb]. rewrite Hother; [reflexivity|].
        intros ->. now rewrite Nat.eqb_refl in E. }
    rewrite Hall.
    + replace (existsb (fun u => tag_rank u =? tag_rank t) significant_tags)
        with true; [reflexivity|].
      destruct t; reflexivity.
    + unfold significant_tags.
      repeat (constructor; [simpl; intuition discriminate|]). constructor.
Qed.

(** ** The lookup maps *)

Lemma dict_get_absent m k :
  ~ In k (dict_keys m) -> dict_get k m = inl KeyError.
Proof.
  induction m as [|[k' items] m IH]; simpl; intros H; [reflexivity|].
  destruct (text_eqb k k') eqn:E.
  - apply text_eqb_eq in E. subst. exfalso. apply H. now left.
  - apply IH. intros Hin. apply H. now right.
Qed.

(** X8. A lookup map groups the blocks by key: its keys are distinct, a key
    is in it exactly when it has at least 30 characters and is the key of a
    block, looking such a key up gives the blocks that have it, in the
    order of the input and with their repetitions, and looking up any
    other key raises [KeyError]. *)
Theorem normalized_map_lookup items k :
  NoDup (dict_keys (normalized_map items))
  /\ (dict_mem k (normalized_map items) = true
      <-> 30 <= length k /\ key_in k items)
  /\ dict_get k (normalized_map items)
     = if dict_mem k (normalized_map items)
       then inr (filter (has_key k) items)
       else inl KeyError.
Proof.
  split; [apply normalized_map_ok|]. split.
  - unfold dict_mem. rewrite set_mem_In. apply normalized_map_keys.
  - unfold dict_mem.
    destruct (set_mem k (dict_keys (normalized_map items))) eqn:E.
    + apply set_mem_In in E. now apply normalized_map_get.
    + apply set_mem_not_In in E. now apply dict_get_absent.
Qed.

Lemma dict_append_blocks k item m :
  Permutation (flat_map snd (dict_append k item m))
              (flat_map snd m ++ [item]).
Proof.
  induction m as [|[k' items] m IH]; simpl.
  - apply Permutation_refl.
  - destruct (text_eqb k k'); simpl.
    + rewrite <- !app_assoc. apply Permutation_app_head.
      apply Permutation_app_comm.
    + rewrite <- app_assoc. now apply Permutation_app_head.
Qed.

(** The blocks a lookup map holds under the keys [p] selects. *)
Lemma dict_append_selected (p : text -> bool) k item m :
  Permutation
    (flat_map (fun e : text * list block => if p (fst e) then snd e else [])
       (dict_append k item m))
    (flat_map (fun e : text * list block => if p (fst e) then snd e else [])
       m
     ++ (if p k then [item] else [])).
Proof.
  induction m as [|[k' items] m IH]; cbn [dict_append flat_map fst snd].
  - rewrite app_nil_r. apply Permutation_refl.
  - destruct (text_eqb k k') eqn:E.
    + apply text_eqb_eq in E. subst k'. cbn [flat_map fst snd].
      destruct (p k).
      * rewrite <- !app_assoc. apply Permutation_app_head.
        apply Permutation_app_comm.
      * rewrite app_nil_r. apply Permutation_refl.
    + cbn [flat_map fst snd]. rewrite <- app_assoc.
      now apply Permutation_app_head.
Qed.

Lemma normalized_map_selected (p : text -> bool) items :
  (forall k, p k = true -> 30 <= length k) ->
  Permutation
    (flat_map (fun e : text * list block => if p (fst e) then snd e else [])
       (normalized_map items))
    (filter (fun b => p (key_of b)) items).
Proof.
  intros Hp. unfold normalized_map.
  assert (H : forall l m,
            Permutation
              (flat_map
                 (fun e : text * list block =>
                    if p (fst e) then snd e else [])
                 (fold_left map_step l m))
              (flat_map
                 (fun e : text * list block =>
                    if p (fst e) then snd e else []) m
               ++ filter (fun b => p (key_of b)) l)).
  { induction l as [|item l IH]; intros m; cbn [fold_left filter].
    - now rewrite app_nil_r.
    - rewrite IH. unfold map_step at 1. fold (key_of item).
      destruct (length (key_of item) <? 30) eqn:E.
      + apply Nat.ltb_lt in E.
        destruct (p (key_of item)) eqn:Ep; [|reflexivity].
        apply Hp in Ep. lia.
      + rewrite dict_append_selected, <- app_assoc.
        destruct (p (key_of item)); reflexivity. }
  apply (H items []).
Qed.

(** With nothing on the other side, the blocks one of the first two
    report loops emits are the blocks whose key is longer than 50. *)
Lemma unmatched_items_alone items :
  Permutation (unmatched_items (normalized_map items) (normalized_map []))
              (filter (fun b => 50 <? length (key_of b)) items).
Proof.
  rewrite <- (normalized_map_selected (fun k => 50 <? length k) items).
  - unfold unmatched_items.
    erewrite flat_map_ext; [apply Permutation_refl|].
    intros [k bs]. reflexivity.
  - intros k H. apply Nat.ltb_lt in H. lia.
Qed.

(** X9. A lookup map loses and repeats nothing: its groups, put together,
    are the blocks whose key has at least 30 characters, each as many
    times as in the input. *)
Theorem normalized_map_keeps_every_long_block items :
  Permutation (flat_map snd (normalized_map items))
              (filter (fun b => 30 <=? length (key_of b)) items).
Proof.
  unfold normalized_map.
  assert (H : forall l m,
            Permutation (flat_map snd (fold_left map_step l m))
              (flat_map snd m
               ++ filter (fun b => 30 <=? length (key_of b)) l)).
  { induction l as [|item l IH]; intros m; cbn [fold_left filter].
    - now rewrite app_nil_r.
    - rewrite IH. unfold map_step at 1. fold (key_of item).
      destruct (length (key_of item) <? 30) eqn:E.
      + apply Nat.ltb_lt in E.
        replace (30 <=? length (key_of item)) with false; [reflexivity|].
        symmetry. apply Nat.leb_gt. exact E.
      + apply Nat.ltb_ge in E.
        replace (30 <=? length (key_of item)) with true
          by (symmetry; now apply Nat.leb_le).
        rewrite dict_append_blocks, <- app_assoc. reflexivity. }
  apply (H items []).
Qed.

(** ** The report of [find_significant_changes] *)

Lemma unmatched_items_iff items other b :
  In b (unmatched_items (normalized_map items) other)
  <-> In b items /\ 50 < length (key_of b)
      /\ dict_mem (key_of b) other = false.
Proof.
  split; [apply unmatched_items_In|]. intros (Hin & Hlen & Hmem).
  assert (Hf : In b (filter (has_key (key_of b))
                       (unmatched_items (normalized_map items) other))).
  { rewrite unmatched_items_filter, Hmem.
    replace (set_mem (key_of b) (dict_keys (normalized_map items)))
      with true.
    - replace (50 <? length (key_of b)) with true
        by (symmetry; now apply Nat.ltb_lt).
      apply filter_In. split; [assumption|now apply has_key_true].
    - symmetry. apply set_mem_In, normalized_map_keys.
      split; [lia|now exists b]. }
  now apply filter_In in Hf.
Qed.

Lemma no_elements_nil {A : Type} (l : list A) :
  (forall x, ~ In x l) -> l = [].
Proof.
  destruct l as [|x l]; [reflexivity|]. intros H.
  exfalso. apply (H x). now left.
Qed.

Lemma dict_mem_false_normalized_map items k :
  dict_mem k (normalized_map items) = false
  <-> ~ (30 <= length k /\ key_in k items).
Proof.
  rewrite <- dict_mem_normalized_map.
  destruct (dict_mem k (normalized_map items)); split; intros H;
    congruence.
Qed.

(** Among the candidates of one search, the first that reaches the best
    similarity is the one returned. *)
Lemma best_match_first new_norm best s : forall olds best0 s0,
  (forall o, In o olds -> 0 < length o) ->
  best_match new_norm olds best0 s0 = inr (Some best, s) ->
  (best0 = Some best /\ s = s0
   /\ forall o, In o olds -> survives_prefilter new_norm o ->
        (SequenceMatcher.ratio new_norm o <= s0)%Q
        \/ (SequenceMatcher.ratio new_norm o <= 3 # 4)%Q)
  \/ exists l1 l2,
       olds = l1 ++ best :: l2
       /\ s = SequenceMatcher.ratio new_norm best
       /\ (s0 < s)%Q /\ (3 # 4 < s)%Q
       /\ forall o, In o l1 -> survives_prefilter new_norm o ->
            (SequenceMatcher.ratio new_norm o < s)%Q.
Proof.
  induction olds as [|o olds IH]; intros best0 s0 Hpos Hbm.
  - simpl in Hbm. inversion Hbm; subst. left.
    split; [reflexivity|]. split; [reflexivity|]. intros ? [].
  - assert (Hpos' : forall o', In o' olds -> 0 < length o')
      by (intros; apply Hpos; now right).
    destruct (length_ratio_defined new_norm o) as [r Hr].
    { specialize (Hpos o (or_introl eq_refl)). lia. }
    cbn [best_match] in Hbm. rewrite Hr in Hbm. cbn [bind] in Hbm.
    assert (Hkeep : forall
              (Ho : survives_prefilter new_norm o ->
                    (SequenceMatcher.ratio new_norm o <= s0)%Q
                    \/ (SequenceMatcher.ratio new_norm o <= 3 # 4)%Q),
              best_match new_norm olds best0 s0 = inr (Some best, s) ->
              (best0 = Some best /\ s = s0
               /\ forall o', In o' (o :: olds) ->
                    survives_prefilter new_norm o' ->
                    (SequenceMatcher.ratio new_norm o' <= s0)%Q
                    \/ (SequenceMatcher.ratio new_norm o' <= 3 # 4)%Q)
              \/ exists l1 l2,
                   o :: olds = l1 ++ best :: l2
                   /\ s = SequenceMatcher.ratio new_norm best
                   /\ (s0 < s)%Q /\ (3 # 4 < s)%Q
                   /\ forall o', In o' l1 -> survives_prefilter new_norm o' ->
                        (SequenceMatcher.ratio new_norm o' < s)%Q).
    { intros Ho H. destruct (IH best0 s0 Hpos' H)
        as [(Hb & Hs & Hall)|(l1 & l2 & -> & Hs & Hlt & Hgt & Hall)].
      - left. split; [assumption|]. split; [assumption|].
        intros o' [<-|Hin] Hsv; [now apply Ho|now apply Hall].
      - right. exists (o :: l1), l2. split; [reflexivity|].
        repeat split; try assumption.
        intros o' [<-|Hin] Hsv; [|now apply Hall].
        destruct (Ho Hsv) as [Hle|Hle].
        + now apply Qle_lt_trans with s0.
        + now apply Qle_lt_trans with (3 # 4). }
    destruct (Qltb r (3 # 4)) eqn:Hpre.
    + apply Hkeep; [|assumption]. intros (r' & Hr' & Hge).
      rewrite Hr in Hr'. inversion Hr'; subst r'. apply Qltb_lt in Hpre.
      exfalso. now apply (Qlt_not_le r (3 # 4)).
    + destruct (Qltb s0 (SequenceMatcher.ratio new_norm o)
                && Qltb (3 # 4) (SequenceMatcher.ratio new_norm o)) eqn:Hup.
      * apply andb_true_iff in Hup. destruct Hup as [Hlt Hgt].
        apply Qltb_lt in Hlt. apply Qltb_lt in Hgt. right.
        destruct (IH _ _ Hpos' Hbm)
          as [(Hb & Hs & Hall)|(l1 & l2 & -> & Hs & Hlt' & Hgt' & Hall)].
        -- inversion Hb; subst. exists [], olds.
           split; [reflexivity|]. repeat split; try assumption.
           intros ? [].
        -- exists (o :: l1), l2. split; [reflexivity|].
           split; [assumption|].
           split; [now apply Qlt_trans
                     with (SequenceMatcher.ratio new_norm o)|].
           split; [assumption|].
           intros o' [<-|Hin] Hsv; [assumption|now apply Hall].
      * apply Hkeep; [|assumption]. intros _.
        apply andb_false_iff in Hup. destruct Hup as [Hup|Hup];
          apply Qltb_ge in Hup; [now left|now right].
Qed.

Section ReportProperties.

Variable set_iter : list text -> list text.
Hypothesis set_iter_perm : forall l, Permutation (set_iter l) l.

(** X10. Rewording that only touches case, punctuation and spacing is not
    reported: when every key of at least 30 characters found on one side
    is found on the other, the three categories are empty. *)
Theorem same_keys_report_nothing old_items new_items thr :
  (forall k, 30 <= length k -> (key_in k old_items <-> key_in k new_items)) ->
  find_significant_changes set_iter old_items new_items thr
  = inr {| added := []; removed := []; modified := [] |}.
Proof.
  intros Hsame.
  assert (Hkeys : forall k,
            In k (dict_keys (normalized_map old_items))
            <-> In k (dict_keys (normalized_map new_items))).
  { intros k. rewrite !normalized_map_keys.
    split; intros [Hlen Hk]; (split; [assumption|]); now apply (Hsame k). }
  unfold find_significant_changes, classify.
  rewrite !unmatched_items_all_matched.
  - rewrite for_each_nil_bodies; [reflexivity|].
    intros new_norm Hin. unfold modified_for.
    replace (set_mem new_norm
               (set_iter (dict_keys (normalized_map old_items))))
      with true; [reflexivity|].
    symmetry. apply set_mem_In, (set_iter_In set_iter set_iter_perm), Hkeys.
    exact (proj1 (set_iter_In set_iter set_iter_perm _ _) Hin).
  - intros entry Hin. apply set_mem_In, Hkeys. now apply in_map.
  - intros entry Hin. apply set_mem_In, Hkeys. now apply in_map.
Qed.

(** X11. With no block on the old side the matcher returns a report in
    which nothing is removed or modified and [added] holds the excerpts of
    the new blocks whose key is longer than 50, each as many times as the
    block occurs; with no block on the new side nothing is added or
    modified and [removed] holds the excerpts of the old blocks whose key
    is longer than 50, each as many times as the block occurs. *)
Theorem one_side_empty items thr :
  exists r r',
    find_significant_changes set_iter [] items thr = inr r
    /\ removed r = [] /\ modified r = []
    /\ Permutation (added r)
         (map excerpt (filter (fun b => 50 <? length (key_of b)) items))
    /\ find_significant_changes set_iter items [] thr = inr r'
    /\ added r' = [] /\ modified r' = []
    /\ Permutation (removed r')
         (map excerpt (filter (fun b => 50 <? length (key_of b)) items)).
Proof.
  destruct (classify_spec set_iter set_iter_perm [] items)
    as (mp & Hc & Hiff).
  destruct (classify_spec set_iter set_iter_perm items [])
    as (mp' & Hc' & Hiff').
  assert (Hmp : mp = []).
  { apply no_elements_nil. intros [ob nb] Hin. apply Hiff in Hin.
    destruct Hin as ([] & _). }
  assert (Hmp' : mp' = []).
  { apply no_elements_nil. intros [ob nb] Hin. apply Hiff' in Hin.
    destruct Hin as (_ & [] & _). }
  subst mp mp'.
  eexists. eexists.
  split; [exact (find_significant_changes_render set_iter [] items thr
                   _ Hc)|].
  cbn [render added removed modified added_items removed_items
       modified_pairs].
  split; [reflexivity|]. split; [reflexivity|].
  split; [apply Permutation_map, unmatched_items_alone|].
  split; [exact (find_significant_changes_render set_iter items [] thr
                   _ Hc')|].
  cbn [render added removed modified added_items removed_items
       modified_pairs].
  split; [reflexivity|]. split; [reflexivity|].
  apply Permutation_map, unmatched_items_alone.
Qed.

(** X12. Exchanging the two sides exchanges [added] and [removed]. *)
Theorem swapping_sides_swaps_added_and_removed old_items new_items thr :
  exists r r',
    find_significant_changes set_iter old_items new_items thr = inr r
    /\ find_significant_changes set_iter new_items old_items thr = inr r'
    /\ added r = removed r' /\ removed r = added r'.
Proof.
  destruct (classify_spec set_iter set_iter_perm old_items new_items)
    as (mp & Hc & _).
  destruct (classify_spec set_iter set_iter_perm new_items old_items)
    as (mp' & Hc' & _).
  exists (render {| added_items :=
                      unmatched_items (normalized_map new_items)
                        (normalized_map old_items);
                    removed_items :=
                      unmatched_items (normalized_map old_items)
                        (normalized_map new_items);
                    modified_pairs := mp |}),
         (render {| added_items :=
                      unmatched_items (normalized_map old_items)
                        (normalized_map new_items);
                    removed_items :=
                      unmatched_items (normalized_map new_items)
                        (normalized_map old_items);
                    modified_pairs := mp' |}).
  unfold find_significant_changes. rewrite Hc, Hc'. repeat split.
Qed.

(** X13. A modification is reported twice: the new block of a [modified]
    entry is also among the added blocks when its key is longer than 50,
    and the old block is also among the removed blocks when its key is
    longer than 50 and is the key of no new block. *)
Theorem modified_blocks_are_also_added_and_removed old_items new_items :
  exists s,
    classify set_iter old_items new_items = inr s
    /\ forall ob nb, In (ob, nb) (modified_pairs s) ->
         (50 < length (key_of nb) -> In nb (added_items s))
         /\ (50 < length (key_of ob) -> ~ key_in (key_of ob) new_items ->
             In ob (removed_items s)).
Proof.
  destruct (classify_spec set_iter set_iter_perm old_items new_items)
    as (mp & Hc & Hiff).
  eexists. split; [exact Hc|]. cbn [added_items removed_items
    modified_pairs].
  intros ob nb Hin. apply Hiff in Hin.
  destruct Hin as (Hob & Hnb & Hlen & (Hnotin & _) & _). split.
  - intros H50. apply unmatched_items_iff. split; [assumption|].
    split; [assumption|]. unfold dict_mem. apply set_mem_not_In.
    intros H. apply Hnotin. now apply (set_iter_In set_iter set_iter_perm).
  - intros H50 Hno. apply unmatched_items_iff. split; [assumption|].
    split; [assumption|]. apply dict_mem_false_normalized_map. tauto.
Qed.

(** X14. Ties go to the first candidate: the old key of a [modified] entry
    comes, in the iteration order of the old keys, before every other key
    that passes the pre-filter with the same similarity; the keys before it
    that pass the pre-filter are strictly less similar. *)
Theorem first_best_candidate_wins old_items new_items :
  exists s,
    classify set_iter old_items new_items = inr s
    /\ forall ob nb, In (ob, nb) (modified_pairs s) ->
         exists before after,
           old_texts_of set_iter old_items
           = before ++ key_of ob :: after
           /\ forall o, In o before ->
                survives_prefilter (key_of nb) o ->
                (SequenceMatcher.ratio (key_of nb) o
                 < SequenceMatcher.ratio (key_of nb) (key_of ob))%Q.
Proof.
  destruct (classify_spec set_iter set_iter_perm old_items new_items)
    as (mp & Hc & Hiff).
  eexists. split; [exact Hc|]. cbn [modified_pairs].
  intros ob nb Hin. apply Hiff in Hin.
  destruct Hin as (_ & _ & _ & (_ & s & Hbm & _) & _).
  destruct (best_match_first _ _ _ _ _ _
              (old_texts_pos set_iter set_iter_perm old_items) Hbm)
    as [(Hb & _)|(l1 & l2 & Hsplit & Hs & _ & _ & Hall)]; [discriminate|].
  exists l1, l2. split; [exact Hsplit|]. now rewrite <- Hs.
Qed.

End ReportProperties.


Lemma same_keys_report_nothing_witness :
  find_significant_changes insertion_order scenario5_old scenario5_new
    (7 # 10)
  = inr {| added := []; removed := []; modified := [] |}.
Proof.
  apply (same_keys_report_nothing insertion_order insertion_order_perm).
  intros k _. unfold key_in.
  split; intros (b & [<-|[]] & <-); eexists; (split; [now left|]);
    vm_compute; reflexivity.
Defined.

Lemma one_side_empty_witness :
  exists r r',
    find_significant_changes insertion_order [] twice_new (7 # 10) = inr r
    /\ removed r = [] /\ modified r = []
    /\ Permutation (added r) (map excerpt twice_new)
    /\ find_significant_changes insertion_order twice_new [] (7 # 10)
       = inr r'
    /\ added r' = [] /\ modified r' = []
    /\ Permutation (removed r') (map excerpt twice_new).
Proof.
  exact (one_side_empty insertion_order insertion_order_perm twice_new
           (7 # 10)).
Defined.

Lemma swapping_sides_swaps_added_and_removed_witness :
  exists r r',
    find_significant_changes insertion_order scenario3_old scenario3_new
      (7 # 10) = inr r
    /\ find_significant_changes insertion_order scenario3_new scenario3_old
         (7 # 10) = inr r'
    /\ added r = removed r' /\ removed r = added r'.
Proof.
  exact (swapping_sides_swaps_added_and_removed insertion_order
           insertion_order_perm scenario3_old scenario3_new (7 # 10)).
Defined.

Lemma modified_blocks_are_also_added_and_removed_witness :
  exists s,
    classify insertion_order scenario3_old ruled_new = inr s
    /\ In (scenario3_old_block, ruled_new_block) (modified_pairs s)
    /\ In ruled_new_block (added_items s)
    /\ In scenario3_old_block (removed_items s).
Proof.
  destruct (modified_blocks_are_also_added_and_removed insertion_order
              insertion_order_perm scenario3_old ruled_new)
    as (s & Hc & H).
  exists s. split; [exact Hc|].
  assert (Hin : In (scenario3_old_block, ruled_new_block) (modified_pairs s)).
  { rewrite ruled_run in Hc. inversion Hc; subst s. now left. }
  split; [exact Hin|]. destruct (H _ _ Hin) as [Ha Hr]. split.
  - apply Ha. apply Nat.ltb_lt. vm_compute. reflexivity.
  - apply Hr.
    + apply Nat.ltb_lt. vm_compute. reflexivity.
    + intros (b & [<-|[]] & Hk). vm_compute in Hk. discriminate Hk.
Defined.

Lemma two_candidates_run :
  classify insertion_order two_candidates ruled_new
  = inr {| added_items := ruled_new;
           removed_items := two_candidates;
           modified_pairs := [(scenario3_old_block, ruled_new_block)] |}.
Proof. vm_compute. reflexivity. Qed.

Lemma first_best_candidate_wins_witness :
  exists s earlier,
    classify insertion_order two_candidates ruled_new = inr s
    /\ In (scenario3_old_block, ruled_new_block) (modified_pairs s)
    /\ old_texts_of insertion_order two_candidates
       = [earlier; key_of scenario3_old_block]
    /\ survives_prefilter (key_of ruled_new_block) earlier
    /\ (SequenceMatcher.ratio (key_of ruled_new_block) earlier
        < SequenceMatcher.ratio (key_of ruled_new_block)
            (key_of scenario3_old_block))%Q.
Proof.
  destruct (first_best_candidate_wins insertion_order insertion_order_perm
              two_candidates ruled_new) as (s & Hc & H).
  exists s.
  exists (normalize_text
            (lit "Hello world, this is a test paragraph with enough length to pass filters.")).
  split; [exact Hc|].
  assert (Hin : In (scenario3_old_block, ruled_new_block) (modified_pairs s)).
  { rewrite two_candidates_run in Hc. inversion Hc; subst s. now left. }
  split; [exact Hin|].
  split; [vm_compute; reflexivity|].
  assert (Hpre : survives_prefilter (key_of ruled_new_block)
                   (normalize_text
                      (lit "Hello world, this is a test paragraph with enough length to pass filters."))).
  { eexists. split; [vm_compute; reflexivity|]. discriminate. }
  split; [exact Hpre|].
  destruct (H _ _ Hin) as (before & after & Hsplit & Hall).
  apply Hall; [|exact Hpre].
  destruct before as [|k before].
  - exfalso. vm_compute in Hsplit. discriminate Hsplit.
  - left. vm_compute in Hsplit. inversion Hsplit. reflexivity.
Defined.

(** ** The pairwise variant *)

Lemma pairwise_best_of_spec new_text : forall olds best0 s0,
  let r := Pairwise.best_of new_text olds best0 s0 in
  (fst r = best0 /\ snd r = s0)
  \/ exists o, fst r = Some o /\ In o olds
       /\ snd r = SequenceMatcher.ratio new_text (snd o) /\ (s0 < snd r)%Q.
Proof.
  induction olds as [|o olds IH]; intros best0 s0; cbn zeta; simpl.
  - now left.
  - destruct (Qltb s0 (SequenceMatcher.ratio new_text (snd o))) eqn:E.
    + apply Qltb_lt in E. right.
      destruct (IH (Some o) (SequenceMatcher.ratio new_text (snd o)))
        as [[Hb Hs]|(o' & Hb & Hin & Hs & Hlt)].
      * exists o. rewrite Hb, Hs. repeat split; try assumption. now left.
      * exists o'. split; [assumption|]. split; [now right|].
        split; [assumption|].
        now apply Qlt_trans with (SequenceMatcher.ratio new_text (snd o)).
    + destruct (IH best0 s0) as [H|(o' & Hb & Hin & Hrest)]; [now left|].
      right. exists o'. split; [assumption|]. split; [now right|assumption].
Qed.

(** The first loop, for a positive threshold: it returns, with the added
    and the modified items in the order of the input. *)
Lemma pairwise_first_loop old_items thr : (0 < thr)%Q ->
  forall new_items,
  exists modified_,
    Pairwise.added_and_modified old_items new_items thr
    = inr (map excerpt (filter (pairwise_added old_items thr) new_items),
           modified_)
    /\ map new modified_
       = map excerpt (filter (pairwise_modified old_items thr) new_items)
    /\ forall c, In c modified_ ->
         exists o, In o old_items /\ old c = excerpt o.
Proof.
  intros Hthr. induction new_items as [|n new_items (m & IH & Hnew & Hold)].
  - exists []. repeat split. intros c [].
  - pose proof (pairwise_best_of_spec (snd n) old_items None 0%Q) as Hb.
    cbv zeta in Hb.
    assert (Ha : pairwise_added old_items thr n
                 = Qltb (snd (Pairwise.best_of (snd n) old_items None 0%Q))
                        thr) by reflexivity.
    assert (Hm : pairwise_modified old_items thr n
                 = negb (Qltb (snd (Pairwise.best_of (snd n) old_items
                                      None 0%Q)) thr)
                   && Qltb (snd (Pairwise.best_of (snd n) old_items
                                   None 0%Q)) (95 # 100)) by reflexivity.
    cbn [Pairwise.added_and_modified filter]. rewrite Ha, Hm. clear Ha Hm.
    destruct (Pairwise.best_of (snd n) old_items None 0%Q) as [bm bs].
    cbn [fst snd] in *.
    destruct (Qltb bs thr) eqn:Ea.
    + rewrite IH. cbn [bind negb andb map]. exists m.
      split; [reflexivity|]. split; assumption.
    + cbn [negb andb]. destruct (Qltb bs (95 # 100)) eqn:Em.
      * destruct Hb as [[-> ->]|(o & -> & Hin & _)].
        -- apply Qltb_ge in Ea. exfalso. now apply (Qlt_not_le 0 thr).
        -- rewrite IH. cbn [bind].
           exists ({| old := excerpt o; new := excerpt n |} :: m).
           split; [reflexivity|]. split; [cbn [map new]; now rewrite Hnew|].
           intros c [<-|Hc]; [now exists o|now apply Hold].
      * exists m. rewrite IH. split; [reflexivity|]. split; assumption.
Qed.

Lemma filter_disjoint_length {A : Type} (f g : A -> bool) (l : list A) :
  (forall x, f x = true -> g x = false) ->
  length (filter f l) + length (filter g l) <= length l.
Proof.
  intros H. induction l as [|x l IH]; [simpl; lia|]. cbn [filter].
  destruct (f x) eqn:E.
  - rewrite (H x E). cbn [length]. lia.
  - destruct (g x); cbn [length]; lia.
Qed.

(** The report of the pairwise variant at a positive threshold. *)
Lemma pairwise_report old_items new_items thr :
  (0 < thr)%Q ->
  exists r,
    Pairwise.find_significant_changes old_items new_items thr = inr r
    /\ added r
       = map excerpt (filter (pairwise_added old_items thr) new_items)
    /\ map new (modified r)
       = map excerpt (filter (pairwise_modified old_items thr) new_items)
    /\ removed r
       = map excerpt (filter (pairwise_removed new_items thr) old_items)
    /\ length (added r) + length (modified r) <= length new_items
    /\ length (removed r) <= length old_items.
Proof.
  intros Hthr.
  destruct (pairwise_first_loop old_items thr Hthr new_items)
    as (m & Hfirst & Hnew & _).
  unfold Pairwise.find_significant_changes. rewrite Hfirst. cbn [bind].
  eexists. split; [reflexivity|]. cbn [added modified removed].
  split; [reflexivity|]. split; [assumption|]. split; [reflexivity|].
  split.
  - rewrite <- (length_map new m), Hnew, !length_map.
    apply filter_disjoint_length. intros n Hn. unfold pairwise_modified.
    now rewrite Hn.
  - rewrite length_map. apply filter_length_le.
Qed.



(** X17. With a threshold of zero or less and nothing on the old side, the
    pairwise variant raises [TypeError] on the first new item: no item is
    below the threshold, and the modified branch subscripts a best match
    that is [None]. *)
Theorem pairwise_raises_without_old_items new_items thr :
  (thr <= 0)%Q -> new_items <> [] ->
  Pairwise.find_significant_changes [] new_items thr = inl TypeError.
Proof.
  intros Hthr Hne. destruct new_items as [|n rest]; [congruence|].
  unfold Pairwise.find_significant_changes.
  cbn [Pairwise.added_and_modified Pairwise.best_of].
  replace (Qltb 0 thr) with false by (symmetry; now apply Qltb_ge).
  reflexivity.
Qed.

Lemma pairwise_raises_without_old_items_witness :
  Pairwise.find_significant_changes [] scenario3_new 0 = inl TypeError.
Proof.
  apply pairwise_raises_without_old_items.
  - apply Qle_refl.
  - discriminate.
Defined.

Lemma filter_all {A : Type} (f : A -> bool) (l : list A) :
  (forall x, In x l -> f x = true) -> filter f l = l.
Proof.
  induction l as [|x l IH]; intros H; simpl; [reflexivity|].
  rewrite (H x (or_introl eq_refl)), IH; [reflexivity|].
  intros; apply H; now right.
Qed.

(** X18. With a positive threshold and one side empty, the pairwise
    variant reports every block of the other side, whatever its length:
    all the new items as added, or all the old items as removed. *)
Theorem pairwise_one_side_empty items thr :
  (0 < thr)%Q ->
  Pairwise.find_significant_changes [] items thr
  = inr {| added := map excerpt items; removed := []; modified := [] |}
  /\ Pairwise.find_significant_changes items [] thr
     = inr {| added := []; removed := map excerpt items; modified := [] |}.
Proof.
  intros Hthr. apply Qltb_lt in Hthr. split.
  - unfold Pairwise.find_significant_changes.
    assert (H : Pairwise.added_and_modified [] items thr
                = inr (map excerpt items, [])).
    { induction items as [|n l IH]; [reflexivity|].
      cbn [Pairwise.added_and_modified Pairwise.best_of].
      rewrite Hthr, IH. reflexivity. }
    rewrite H. reflexivity.
  - unfold Pairwise.find_significant_changes.
    cbn [Pairwise.added_and_modified bind Pairwise.best_similarity_of].
    rewrite filter_all; [reflexivity|]. intros; exact Hthr.
Qed.

Lemma pairwise_one_side_empty_witness :
  Pairwise.find_significant_changes [] twice_new (7 # 10)
  = inr {| added := map excerpt twice_new; removed := []; modified := [] |}
  /\ Pairwise.find_significant_changes twice_new [] (7 # 10)
     = inr {| added := []; removed := map excerpt twice_new;
              modified := [] |}.
Proof. exact (pairwise_one_side_empty twice_new (7 # 10) eq_refl). Defined.

Lemma filter_implied {A : Type} (f g : A -> bool) (l : list A) :
  (forall x, f x = true -> g x = true) ->
  incl (filter f l) (filter g l)
  /\ length (filter f l) <= length (filter g l).
Proof.
  intros H. split.
  - intros x Hx. apply filter_In in Hx. apply filter_In.
    split; [tauto|]. apply H. tauto.
  - induction l as [|x l IH]; [simpl; lia|]. cbn [filter].
    destruct (f x) eqn:E.
    + rewrite (H x E). cbn [length]. lia.
    + destruct (g x); cbn [length]; lia.
Qed.

(** X19. Raising a positive threshold never takes an entry out of [added]
    or [removed]: what the pairwise variant adds or removes at a threshold
    it adds or removes at every larger one. *)
Theorem pairwise_threshold_is_monotone old_items new_items t1 t2 :
  (0 < t1)%Q -> (t1 <= t2)%Q ->
  exists r1 r2,
    Pairwise.find_significant_changes old_items new_items t1 = inr r1
    /\ Pairwise.find_significant_changes old_items new_items t2 = inr r2
    /\ incl (added r1) (added r2) /\ incl (removed r1) (removed r2)
    /\ length (added r1) <= length (added r2)
    /\ length (removed r1) <= length (removed r2).
Proof.
  intros H1 H12.
  assert (H2 : (0 < t2)%Q) by (now apply Qlt_le_trans with t1).
  destruct (pairwise_report old_items new_items t1 H1)
    as (r1 & Hr1 & Ha1 & _ & Hd1 & _).
  destruct (pairwise_report old_items new_items t2 H2)
    as (r2 & Hr2 & Ha2 & _ & Hd2 & _).
  exists r1, r2. split; [assumption|]. split; [assumption|].
  rewrite Ha1, Ha2, Hd1, Hd2, !length_map.
  assert (Hmono : forall q, Qltb q t1 = true -> Qltb q t2 = true).
  { intros q Hq. apply Qltb_lt in Hq. apply Qltb_lt.
    now apply Qlt_le_trans with t1. }
  destruct (filter_implied (pairwise_added old_items t1)
              (pairwise_added old_items t2) new_items) as [Hi Hl].
  { intros n. apply Hmono. }
  destruct (filter_implied (pairwise_removed new_items t1)
              (pairwise_removed new_items t2) old_items) as [Hi' Hl'].
  { intros o. apply Hmono. }
  split; [now apply incl_map|]. split; [now apply incl_map|]. now split.
Qed.

Lemma pairwise_threshold_is_monotone_witness :
  exists r1 r2,
    Pairwise.find_significant_changes scenario3_old scenario3_new (7 # 10)
    = inr r1
    /\ Pairwise.find_significant_changes scenario3_old scenario3_new (9 # 10)
       = inr r2
    /\ incl (added r1) (added r2) /\ incl (removed r1) (removed r2)
    /\ length (added r1) <= length (added r2)
    /\ length (removed r1) <= length (removed r2).
Proof.
  apply pairwise_threshold_is_monotone.
  - reflexivity.
  - discriminate.
Defined.

(** ** [compare_pages] *)

Lemma occurs_in_refl s : occurs_in s s.
Proof. exists [], []. now rewrite app_nil_r. Qed.

Lemma occurs_in_app s t a b : occurs_in s t -> occurs_in s (a ++ t ++ b).
Proof.
  intros (x & y & ->). exists (a ++ x), (y ++ b).
  now rewrite <- !app_assoc.
Qed.

Lemma occurs_in_concat_map {A : Type} (g w : A -> text) (l : list A) x :
  (forall y, occurs_in (g y) (w y)) -> In x l ->
  occurs_in (g x) (concat (map w l)).
Proof.
  intros Hw Hin. apply in_split in Hin. destruct Hin as (l1 & l2 & ->).
  rewrite map_app, concat_app. cbn [map concat].
  apply occurs_in_app with (a := concat (map w l1)). apply Hw.
Qed.

Lemma occurs_in_head s r : occurs_in s (s ++ r).
Proof. now exists [], r. Qed.

Lemma occurs_in_skip s a t : occurs_in s t -> occurs_in s (a ++ t).
Proof.
  intros (x & y & ->). exists (a ++ x), y. now rewrite <- app_assoc.
Qed.

Ltac find_occurrence :=
  repeat first [ apply occurs_in_head | apply occurs_in_skip ].

Lemma added_html_shows items e : In e items -> occurs_in e (added_html items).
Proof.
  intros Hin. destruct items as [|i items]; [contradiction|].
  unfold added_html.
  apply (occurs_in_concat_map (fun x => x)); [|assumption].
  intros y. find_occurrence.
Qed.

Lemma removed_html_shows items e :
  In e items -> occurs_in e (removed_html items).
Proof.
  intros Hin. destruct items as [|i items]; [contradiction|].
  unfold removed_html.
  apply (occurs_in_concat_map (fun x => x)); [|assumption].
  intros y. find_occurrence.
Qed.

Lemma modified_html_shows changes c :
  In c changes ->
  occurs_in (old c) (modified_html changes)
  /\ occurs_in (new c) (modified_html changes).
Proof.
  intros Hin. destruct changes as [|c0 changes]; [contradiction|].
  unfold modified_html. split.
  - apply (occurs_in_concat_map old); [|assumption]. intros y.
    find_occurrence.
  - apply (occurs_in_concat_map new); [|assumption]. intros y.
    find_occurrence.
Qed.

Lemma html_report_shows changes e :
  excerpt_of_report changes e -> occurs_in e (html_report changes).
Proof.
  unfold html_report.
  intros [H|[H|(c & Hc & He)]].
  - apply added_html_shows in H.
    rewrite (app_assoc template_0), (app_assoc _ template_1).
    now apply occurs_in_app.
  - apply removed_html_shows in H.
    rewrite (app_assoc template_0), (app_assoc _ template_1),
      (app_assoc _ (added_html _)), (app_assoc _ template_2),
      (app_assoc _ (decimal _)), (app_assoc _ template_3).
    now apply occurs_in_app.
  - apply modified_html_shows in Hc. destruct Hc as [Ho Hn].
    assert (H : occurs_in e (modified_html (modified changes)))
      by (destruct He as [->| ->]; assumption).
    rewrite (app_assoc template_0), (app_assoc _ template_1),
      (app_assoc _ (added_html _)), (app_assoc _ template_2),
      (app_assoc _ (decimal _)), (app_assoc _ template_3),
      (app_assoc _ (removed_html _)), (app_assoc _ template_4),
      (app_assoc _ (decimal _)), (app_assoc _ template_5).
    now apply occurs_in_app.
Qed.

Lemma same_list_reports_nothing (set_iter : list text -> list text) X thr :
  find_significant_changes set_iter X X thr = inr nothing_reported.
Proof.
  unfold find_significant_changes, classify.
  rewrite unmatched_items_self.
  rewrite for_each_nil_bodies; [reflexivity|].
  intros new_norm Hin. unfold modified_for.
  replace (set_mem new_norm (set_iter (dict_keys (normalized_map X))))
    with true; [reflexivity|].
  symmetry. now apply set_mem_In.
Qed.



(** X21. A page compared with itself: when the parser rejects the content
    its exception is raised; otherwise there is no change: the three lists
    are empty and the report shows the three counts 0 and the three
    messages of an empty card. *)
Theorem compare_pages_same_content (soup : Type) (parse : text -> py soup)
    (find_all_text : soup -> tag_name -> list text)
    (set_iter : list text -> list text) html :
  compare_pages parse find_all_text set_iter (Some html) (Some html)
  = match parse html with
    | inl e => inl e
    | inr _ => inr (Some nothing_reported, html_report nothing_reported)
    end
  /\ html_report nothing_reported
     = template_0 ++ lit "0" ++ template_1
       ++ lit "<div class=" ++ dq ++ lit "empty-message" ++ dq
       ++ lit ">No new content detected</div>"
       ++ template_2 ++ lit "0" ++ template_3
       ++ lit "<div class=" ++ dq ++ lit "empty-message" ++ dq
       ++ lit ">No removed content detected</div>"
       ++ template_4 ++ lit "0" ++ template_5
       ++ lit "<div class=" ++ dq ++ lit "empty-message" ++ dq
       ++ lit ">No modified content detected</div>"
       ++ template_6.
Proof.
  split.
  - unfold compare_pages, extract_or_raise.
    destruct (parse html) as [e|so]; [reflexivity|]. cbn [bind ret].
    now rewrite same_list_reports_nothing.
  - unfold html_report, nothing_reported. cbn [added removed modified length
      added_html removed_html modified_html].
    change (decimal 0) with (lit "0"). now rewrite <- !app_assoc.
Qed.

(** X22. The report leaves no change out and escapes nothing: every
    excerpt of the changes [compare_pages] returns occurs in its report
    character for character. *)
Theorem report_shows_every_excerpt (soup : Type) (parse : text -> py soup)
    (find_all_text : soup -> tag_name -> list text)
    (set_iter : list text -> list text) old_content new_content
    changes html :
  compare_pages parse find_all_text set_iter old_content new_content
  = inr (Some changes, html) ->
  forall e, excerpt_of_report changes e -> occurs_in e html.
Proof.
  unfold compare_pages. intros H e He.
  destruct old_content as [oldc|], new_content as [newc|];
    try discriminate.
  destruct (extract_or_raise parse find_all_text (Some oldc)) as [ex|oi];
    [discriminate|].
  destruct (extract_or_raise parse find_all_text (Some newc)) as [ex|ni];
    [discriminate|].
  cbn [bind] in H.
  destruct (find_significant_changes set_iter oi ni (7 # 10)) as [ex|r];
    [discriminate|].
  cbn [bind] in H. inversion H; subst. now apply html_report_shows.
Qed.

Lemma report_shows_every_excerpt_witness :
  occurs_in (excerpt (tag_p, scenario2_text))
    (html_report
       (render {| added_items := [(tag_p, scenario2_text)];
                  removed_items := [];
                  modified_pairs := [] |})).
Proof.
  apply (report_shows_every_excerpt page
           (fun html => ret (one_paragraph html)) elements_of
           insertion_order
           (Some (lit "Archived copy")) (Some scenario2_text)
           (render {| added_items := [(tag_p, scenario2_text)];
                      removed_items := [];
                      modified_pairs := [] |})).
  - vm_compute. reflexivity.
  - left. now left.
Defined.

(** ** Words and keys *)

Lemma findall_words_from_spec : forall s cur,
  Forall (fun c => is_word c = true) cur ->
  concat (findall_words_from cur s) = rev cur ++ filter is_word s
  /\ Forall (fun w => w <> [] /\ Forall (fun c => is_word c = true) w)
            (findall_words_from cur s).
Proof.
  assert (Hrun : forall cur : text,
            Forall (fun c => is_word c = true) cur -> cur <> [] ->
            rev cur <> [] /\ Forall (fun c => is_word c = true) (rev cur)).
  { intros cur Hcur Hne. split.
    - intros H. apply Hne. apply (f_equal (@rev ascii)) in H.
      now rewrite rev_involutive in H.
    - now apply Forall_rev. }
  induction s as [|c s IH]; intros cur Hcur.
  - destruct cur as [|x cur]; simpl.
    + split; [reflexivity|constructor].
    + rewrite !app_nil_r. split; [reflexivity|].
      constructor; [|constructor]. now apply (Hrun (x :: cur)).
  - cbn [findall_words_from filter]. destruct (is_word c) eqn:E.
    + destruct (IH (c :: cur)) as [H1 H2]; [now constructor|].
      split; [|assumption]. rewrite H1. cbn [rev].
      now rewrite <- app_assoc.
    + destruct cur as [|x cur].
      * now apply IH.
      * destruct (IH [] (Forall_nil _)) as [H1 H2].
        cbn [concat]. rewrite H1. split; [reflexivity|].
        constructor; [|assumption]. now apply (Hrun (x :: cur)).
Qed.

(** X23. The words of a text are non-empty runs of word characters, and
    put end to end they are the word characters of the text, in order; so
    the normalized key of a text is its lower-cased words put end to
    end. *)
Theorem words_make_the_key t :
  Forall (fun w => w <> [] /\ Forall (fun c => is_word c = true) w)
         (findall_words t)
  /\ concat (findall_words t) = filter is_word t
  /\ normalize_text t = concat (findall_words (lower t)).
Proof.
  unfold findall_words.
  destruct (findall_words_from_spec t [] (Forall_nil _)) as [H1 H2].
  destruct (findall_words_from_spec (lower t) [] (Forall_nil _)) as [H3 _].
  split; [assumption|]. split; [exact H1|].
  rewrite H3. apply normalize_text_filter.
Qed.

(** ** The similarity ratio *)

Lemma new_j2len_row_ok b x blo bhi : forall bs j diag j2len,
  (diag = 0 \/ (blo < j /\ diag <= j - blo)) ->
  row_ok blo bhi j j2len ->
  row_ok blo bhi j (SequenceMatcher.new_j2len b x blo bhi j bs diag j2len).
Proof.
  induction bs as [|y bs IH]; intros j diag j2len Hd Hrow; simpl;
    [exact I|].
  split.
  - destruct (_ && _) eqn:E; [|now left]. right.
    apply andb_true_iff in E. destruct E as [E E2].
    apply andb_true_iff in E. destruct E as [_ E1].
    apply Nat.leb_le in E1. apply Nat.ltb_lt in E2. lia.
  - apply IH.
    + destruct j2len as [|k row]; [now left|]. cbn [hd].
      destruct Hrow as [[->|Hk] _]; [now left|right; lia].
    + destruct j2len as [|k row]; [exact I|]. cbn [tl]. apply Hrow.
Qed.

Lemma update_best_within_b blo bhi i : forall row j best,
  within_b blo bhi best -> row_ok blo bhi j row ->
  within_b blo bhi (SequenceMatcher.update_best i j row best).
Proof.
  induction row as [|k row IH]; intros j [[bi bj] bk] Hb Hrow; simpl.
  - assumption.
  - destruct Hrow as [Hk Hrow]. apply IH; [|assumption].
    destruct (bk <? k) eqn:E; [|assumption].
    apply Nat.ltb_lt in E. destruct Hk as [->|Hk]; [lia|].
    unfold within_b. lia.
Qed.

Lemma scan_rows_within_b b blo bhi : forall as_ i j2len best,
  within_b blo bhi best -> row_ok blo bhi 0 j2len ->
  within_b blo bhi (SequenceMatcher.scan_rows b blo bhi i as_ j2len best).
Proof.
  induction as_ as [|x as_ IH]; intros i j2len best Hb Hrow; simpl.
  - assumption.
  - assert (Hnew : row_ok blo bhi 0
                     (SequenceMatcher.new_j2len b x blo bhi 0 b 0 j2len))
      by (apply new_j2len_row_ok; [now left|assumption]).
    apply IH; [|assumption]. now apply update_best_within_b.
Qed.

Lemma extend_left_within_b a b alo blo top : forall besti bestj bestsize,
  within_b blo top (besti, bestj, bestsize) ->
  within_b blo top
    (SequenceMatcher.extend_left a b alo blo besti bestj bestsize).
Proof.
  induction besti as [|i' IH]; intros bestj bestsize H; simpl.
  - assumption.
  - destruct (_ && _) eqn:E; [|assumption].
    apply andb_true_iff in E. destruct E as [E _].
    apply andb_true_iff in E. destruct E as [_ E].
    apply Nat.ltb_lt in E. apply IH. unfold within_b in *. lia.
Qed.

Lemma extend_right_bound_b a b ahi bhi besti bestj : forall room bestsize,
  bestj + bestsize <= bhi ->
  bestj + SequenceMatcher.extend_right a b ahi bhi besti bestj room bestsize
  <= bhi.
Proof.
  induction room as [|room IH]; intros bestsize H; simpl.
  - lia.
  - destruct (_ && _) eqn:E; [|lia].
    apply andb_true_iff in E. destruct E as [E _].
    apply andb_true_iff in E. destruct E as [_ E].
    apply Nat.ltb_lt in E. apply IH. lia.
Qed.

Lemma find_longest_match_within_b a b alo ahi blo bhi :
  blo <= bhi ->
  within_b blo bhi (SequenceMatcher.find_longest_match a b alo ahi blo bhi).
Proof.
  intros Hle. unfold SequenceMatcher.find_longest_match.
  pose proof (scan_rows_within_b b blo bhi
                (firstn (ahi - alo) (skipn alo a)) alo [] (alo, blo, 0))
    as Hscan.
  destruct (SequenceMatcher.scan_rows b blo bhi alo
              (firstn (ahi - alo) (skipn alo a)) [] (alo, blo, 0))
    as [[i0 j0] k0].
  assert (H0 : within_b blo bhi (i0, j0, k0))
    by (apply Hscan; [unfold within_b; lia|exact I]).
  pose proof (extend_left_within_b a b alo blo bhi i0 j0 k0 H0) as Hl.
  destruct (SequenceMatcher.extend_left a b alo blo i0 j0 k0)
    as [[i1 j1] k1].
  unfold within_b in *. destruct Hl as [Hl1 Hl2]. split; [assumption|].
  now apply extend_right_bound_b.
Qed.

(** The blocks collected from a window fit in it, on both sides. *)
Lemma matching_size_bound a b : forall fuel alo ahi blo bhi,
  alo <= ahi -> blo <= bhi ->
  SequenceMatcher.matching_size fuel a b alo ahi blo bhi <= ahi - alo
  /\ SequenceMatcher.matching_size fuel a b alo ahi blo bhi <= bhi - blo.
Proof.
  induction fuel as [|fuel IH]; intros alo ahi blo bhi Ha Hb;
    [simpl; lia|].
  cbn [SequenceMatcher.matching_size].
  pose proof (find_longest_match_within a b alo ahi blo bhi Ha) as Hwa.
  pose proof (find_longest_match_within_b a b alo ahi blo bhi Hb) as Hwb.
  destruct (SequenceMatcher.find_longest_match a b alo ahi blo bhi)
    as [[i j] k].
  unfold within, within_b in *.
  destruct (k =? 0); [lia|].
  assert (Hleft :
            (if (alo <? i) && (blo <? j)
             then SequenceMatcher.matching_size fuel a b alo i blo j else 0)
            <= i - alo
            /\ (if (alo <? i) && (blo <? j)
                then SequenceMatcher.matching_size fuel a b alo i blo j
                else 0) <= j - blo).
  { destruct ((alo <? i) && (blo <? j)); [apply IH; lia|lia]. }
  assert (Hright :
            (if (i + k <? ahi) && (j + k <? bhi)
             then SequenceMatcher.matching_size fuel a b (i + k) ahi
                    (j + k) bhi else 0)
            <= ahi - (i + k)
            /\ (if (i + k <? ahi) && (j + k <? bhi)
                then SequenceMatcher.matching_size fuel a b (i + k) ahi
                       (j + k) bhi else 0) <= bhi - (j + k)).
  { destruct ((i + k <? ahi) && (j + k <? bhi)); [apply IH; lia|lia]. }
  lia.
Qed.

(** X24. The matched characters are at most as many as each of the two
    strings has, and the similarity ratio lies between 0 and 1; two empty
    strings have ratio 1. *)
Theorem ratio_between_0_and_1 a b :
  SequenceMatcher.matches a b <= length a
  /\ SequenceMatcher.matches a b <= length b
  /\ (0 <= SequenceMatcher.ratio a b)%Q
  /\ (SequenceMatcher.ratio a b <= 1)%Q
  /\ SequenceMatcher.ratio [] [] = 1%Q.
Proof.
  destruct (matching_size_bound a b (S (length a)) 0 (length a) 0 (length b))
    as [Ha Hb]; [lia|lia|].
  fold (SequenceMatcher.matches a b) in Ha, Hb.
  rewrite Nat.sub_0_r in Ha, Hb.
  split; [assumption|]. split; [assumption|].
  unfold SequenceMatcher.ratio.
  destruct (length a + length b =? 0) eqn:E.
  - repeat split; discriminate.
  - apply Nat.eqb_neq in E.
    assert (HT : Z.pos (Pos.of_nat (length a + length b))
                 = Z.of_nat (length a + length b))
      by (rewrite <- positive_nat_Z, Nat2Pos.id; [reflexivity|assumption]).
    split; [|split; [|reflexivity]]; unfold Qle; cbn [Qnum Qden];
      rewrite HT; lia.
Qed.

(** ** The similarity of the code is not the one of the specification *)

Lemma archived_run :
  classify insertion_order [archived_block] [live_block]
  = inr {| added_items := [live_block];
           removed_items := [archived_block];
           modified_pairs := [(archived_block, live_block)] |}.
Proof. vm_compute. reflexivity. Qed.

(** C1, as stated, fails.  The live paragraph is the archived one with a
    sentence inserted: the archived key (224 characters) is a subsequence
    of the live key (270 characters), so the ratio based on the longest
    common subsequence is 448/494, above 0.9, and the pairing should be
    taken for unchanged.  The code compares the keys with [difflib], whose
    heuristic for sequences of 200 elements or more sets the frequent letters
    aside: it finds 201 matching characters, a ratio of 402/494 between
    0.75 and 0.9, and the matcher returns a [modified] entry. *)
Lemma modified_entry_with_lcs_ratio_above_09 :
  exists s,
    classify insertion_order [archived_block] [live_block] = inr s
    /\ find_significant_changes insertion_order [archived_block]
         [live_block] (7 # 10) = inr (render s)
    /\ In (archived_block, live_block) (modified_pairs s)
    /\ modified (render s)
       = [{| old := excerpt archived_block; new := excerpt live_block |}]
    /\ (3 # 4 < SequenceMatcher.ratio (key_of live_block)
                  (key_of archived_block))%Q
    /\ (SequenceMatcher.ratio (key_of live_block) (key_of archived_block)
        < 9 # 10)%Q
    /\ lcs_ratio_at_least (9 # 10) (key_of live_block)
         (key_of archived_block).
Proof.
  eexists. split; [exact archived_run|].
  split; [unfold find_significant_changes; now rewrite archived_run|].
  split; [now left|]. split; [reflexivity|].
  assert (Hbest : best_fuzzy_match [archived_block] (key_of live_block)
                    (key_of archived_block)).
  { destruct (classify_spec insertion_order insertion_order_perm
                [archived_block] [live_block]) as (mp & Hc & Hiff).
    rewrite archived_run in Hc.
    pose proof (f_equal (fun r : py sources =>
                           match r with
                           | inr s => modified_pairs s
                           | inl _ => []
                           end) Hc) as Hmp.
    cbv beta iota delta [modified_pairs] in Hmp.
    apply (accepted_is_best insertion_order insertion_order_perm).
    apply (Hiff archived_block live_block). rewrite <- Hmp. now left. }
  destruct Hbest as (_ & _ & _ & Hlo & Hhi & _).
  split; [exact Hlo|]. split; [exact Hhi|].
  exists (key_of archived_block).
  split; [vm_compute; reflexivity|]. split; [vm_compute; reflexivity|].
  vm_compute. discriminate.
Qed.
